(** * Tic-tac-toe session server (src/index.js): model and properties

    The server keeps one global object [games] from game ids to game
    records and reacts to socket events.  Each handler is embedded as a
    function from the id of the emitting socket, the event payload and
    the state of the server to the new state and the list of transport
    actions the handler performs, in program order.  [Math.random]
    draws and clock readings are inputs of the handlers; logging is
    left out.

    [games] is a plain object, so [games[gameId]] also finds what a
    plain object inherits from [Object.prototype].  The state therefore
    holds, beside the stored records, what [requestRematch] can write
    on those inherited objects. *)

From Stdlib Require Import ZArith Lia Bool Ascii.
From stdpp Require Import base list strings pretty.

(** ** Values *)

(** The two strings ['X'] and ['O']. *)
Inductive mark := X | O.

#[global] Instance mark_eq_dec : EqDecision mark.
Proof. solve_decision. Defined.

(** A board cell: [None] is JavaScript [null], [Some s] the string of
    [s].  Reading an array returns [option cell], where [None] is
    [undefined] (index out of range). *)
Abbreviation cell := (option mark).

(** What [checkWinner] returns: [null], a cell's symbol, or ['Tie']. *)
Inductive outcome := NoWinner | Win (s : mark) | Tie.

#[global] Instance outcome_eq_dec : EqDecision outcome.
Proof. solve_decision. Defined.

(** JavaScript truthiness of a [checkWinner] result. *)
Definition truthy (w : outcome) : bool :=
  match w with NoWinner => false | _ => true end.

(** [currentPlayer === 'X' ? 'O' : 'X'] *)
Definition flip (s : mark) : mark :=
  match s with X => O | O => X end.

(** ** Board logic: [checkWinner] (index.js 20-34) *)

Definition winPatterns : list (nat * nat * nat) :=
  [ (0, 1, 2); (3, 4, 5); (6, 7, 8);
    (0, 3, 6); (1, 4, 7); (2, 5, 8);
    (0, 4, 8); (2, 4, 6) ].

(** [board[a] && board[a] === board[b] && board[a] === board[c]],
    giving [board[a]] when the test passes. *)
Definition wins (board : list cell) (p : nat * nat * nat) : option mark :=
  let '(a, b, c) := p in
  match board !! a with
  | Some (Some s) =>
      if bool_decide (board !! a = board !! b)
         && bool_decide (board !! a = board !! c)
      then Some s else None
  | _ => None
  end.

(** The [for (const pattern of winPatterns)] loop with its early return. *)
Fixpoint firstWin (board : list cell) (ps : list (nat * nat * nat))
  : option mark :=
  match ps with
  | [] => None
  | p :: ps' =>
      match wins board p with
      | Some s => Some s
      | None => firstWin board ps'
      end
  end.

(** [board.includes(null)] *)
Definition includes_null (board : list cell) : bool :=
  existsb (fun c => match c with None => true | Some _ => false end) board.

Definition checkWinner (board : list cell) : outcome :=
  match firstWin board winPatterns with
  | Some s => Win s
  | None => if includes_null board then NoWinner else Tie
  end.

(** *** The geometry of the 3x3 grid, independently of [winPatterns] *)

Definition row (r : nat) : nat * nat * nat := (3 * r, 3 * r + 1, 3 * r + 2).
Definition column (c : nat) : nat * nat * nat := (c, c + 3, c + 6).
Definition diagonals : list (nat * nat * nat) := [ (0, 4, 8); (2, 4, 6) ].

(** Rows, then columns, then diagonals. *)
Definition lines : list (nat * nat * nat) :=
  map row [0; 1; 2] ++ map column [0; 1; 2] ++ diagonals.

(** The three cells of [p] all hold the symbol [s]. *)
Definition uniform (board : list cell) (p : nat * nat * nat) (s : mark) : Prop :=
  board !! p.1.1 = Some (Some s) /\
  board !! p.1.2 = Some (Some s) /\
  board !! p.2 = Some (Some s).

(** Some line of the grid is uniformly one symbol. *)
Definition has_line (board : list cell) : Prop :=
  exists p s, p ∈ lines /\ uniform board p s.

(** [p] is the first line, in the order of [lines], that is uniform. *)
Definition first_line (board : list cell) (p : nat * nat * nat) (s : mark) : Prop :=
  exists pre post,
    lines = pre ++ p :: post /\ uniform board p s /\
    forall q s', q ∈ pre -> ~ uniform board q s'.

(** ** Session records (index.js 44-54, 87-92) *)

Record player := Player {
  id : string;
  username : string;
  symbol : mark;
  disconnected : bool
}.

(** [winner] is absent ([undefined], here [None]) until a handler
    assigns it; [requestRematch] assigns [null] ([Some NoWinner]). *)
Record game := Game {
  players : list player;
  board : list cell;
  currentPlayer : mark;
  status : string;
  winner : option outcome
}.

(** ** The own properties of [games] (index.js 18)

    The records the handlers store.  [for .. in] enumerates own string
    keys in insertion order (the ids the server creates are never
    integer-like), assigning to a present key keeps its place, and a
    key occurs once: an association list in enumeration order. *)
Definition store := list (string * game).

(** The own property [gameId] of [games], if any. *)
Fixpoint games_get (gameId : string) (games : store) : option game :=
  match games with
  | [] => None
  | (k, g) :: rest =>
      if bool_decide (k = gameId) then Some g else games_get gameId rest
  end.

(** [games[gameId] = g], also the write-back of a record mutated in place *)
Fixpoint games_set (gameId : string) (g : game) (games : store) : store :=
  match games with
  | [] => [(gameId, g)]
  | (k, g0) :: rest =>
      if bool_decide (k = gameId) then (k, g) :: rest
      else (k, g0) :: games_set gameId g rest
  end.

(** [delete games[gameId]] *)
Fixpoint games_delete (gameId : string) (games : store) : store :=
  match games with
  | [] => []
  | (k, g0) :: rest =>
      if bool_decide (k = gameId) then games_delete gameId rest
      else (k, g0) :: games_delete gameId rest
  end.


(** [Array(9).fill(null)] *)
Definition emptyBoard : list cell := replicate 9 None.

(** ** What [games] inherits

    [games[gameId]] looks at the own properties first and then at
    [Object.prototype].  A plain object inherits the accessor
    [__proto__], whose value is [Object.prototype] itself, and eleven
    methods (ECMAScript, Object.prototype and its Annex B additions);
    all are objects, hence truthy, and none is enumerable.

    [requestRematch] assigns the four fields [board], [currentPlayer],
    [winner], [status] to whatever [games[gameId]] is.  On an inherited
    method the fields become own properties of that function.  On
    [Object.prototype] they become enumerable properties that every
    object inherits: [games.board] is then an array of nine [null]s,
    [games.currentPlayer] is ['X'], [games.winner] is [null],
    [games.status] is ['in-progress'], and a record without an own
    [winner] reads [null] for it.  No handler ever assigns [players]
    to anything but a record it creates, and no [makeMove] gets past
    [players.find] on anything but a record, so the [board] of an
    inherited object stays nine [null]s. *)

Record server := Server {
  games : store;
  (** the four fields were assigned on [Object.prototype] *)
  protoReset : bool;
  (** the inherited methods the four fields were assigned on *)
  methodsReset : list string
}.

(** The server starts with [games = {}]. *)
Definition init : server :=
  {| games := []; protoReset := false; methodsReset := [] |}.

Definition set_games (st : server) (gs : store) : server :=
  {| games := gs; protoReset := protoReset st;
     methodsReset := methodsReset st |}.

(** The values [games[gameId]] can have. *)
Inductive jsval :=
| VRecord (g : game)
| VObjectPrototype
| VMethod (name : string)
| VArray
| VString (s : string)
| VNull
| VUndefined.

Definition inherited_methods : list string :=
  [ "constructor"; "__defineGetter__"; "__defineSetter__"; "hasOwnProperty";
    "__lookupGetter__"; "__lookupSetter__"; "isPrototypeOf";
    "propertyIsEnumerable"; "toString"; "valueOf"; "toLocaleString" ].

(** The fields [requestRematch] assigns, in the order it assigns them. *)
Definition reset_fields : list string :=
  [ "board"; "currentPlayer"; "winner"; "status" ].

(** What [games] inherits under the name [k]. *)
Definition inherited (st : server) (k : string) : jsval :=
  if bool_decide (k = "__proto__") then VObjectPrototype
  else if bool_decide (k ∈ inherited_methods) then VMethod k
  else if protoReset st then
    if bool_decide (k = "board") then VArray
    else if bool_decide (k = "currentPlayer") then VString "X"
    else if bool_decide (k = "winner") then VNull
    else if bool_decide (k = "status") then VString "in-progress"
    else VUndefined
  else VUndefined.

(** [games[gameId]] *)
Definition games_lookup (gameId : string) (st : server) : jsval :=
  match games_get gameId (games st) with
  | Some g => VRecord g
  | None => inherited st gameId
  end.

(** JavaScript truthiness of such a value. *)
Definition is_truthy (v : jsval) : bool :=
  match v with
  | VRecord _ | VObjectPrototype | VMethod _ | VArray => true
  | VString s => negb (bool_decide (s = ""))
  | VNull | VUndefined => false
  end.

(** [v.board] for a truthy [v]; [None] is [undefined].  The array
    [games.board] inherits its own [board], and a string reads the
    field through [String.prototype] from [Object.prototype]. *)
Definition reads_board (st : server) (v : jsval) : option (list cell) :=
  match v with
  | VRecord g => Some (board g)
  | VObjectPrototype => if protoReset st then Some emptyBoard else None
  | VMethod k =>
      if bool_decide (k ∈ methodsReset st) || protoReset st
      then Some emptyBoard else None
  | VArray | VString _ => Some emptyBoard
  | VNull | VUndefined => None
  end.

(** [game.winner] for a record: an absent field is read from
    [Object.prototype]. *)
Definition reads_winner (st : server) (g : game) : option outcome :=
  match winner g with
  | Some w => Some w
  | None => if protoReset st then Some NoWinner else None
  end.

(** The four assignments of [requestRematch] on a value that is no
    record.  The file is not in strict mode: on a string they do
    nothing. *)
Definition reset_inherited (st : server) (v : jsval) : server :=
  match v with
  | VObjectPrototype =>
      {| games := games st; protoReset := true;
         methodsReset := methodsReset st |}
  | VMethod k =>
      {| games := games st; protoReset := protoReset st;
         methodsReset := if bool_decide (k ∈ methodsReset st)
                         then methodsReset st else k :: methodsReset st |}
  | _ => st
  end.

(** The keys [for (const gameId in games)] visits: the own ones, then
    the enumerable inherited ones. *)
Definition enumerated (st : server) : list string :=
  map fst (games st) ++ (if protoReset st then reset_fields else []).

(** ** What a handler sends *)

Inductive event :=
| gameCreated (gameId username : string) (board : list cell)
| joinError (error : string)
| gameStarted (players : list player) (board : list cell)
              (currentPlayer : mark) (gameId : string)
| joinSuccess (symbol : mark) (gameId : string)
| moveError (error : string)
| moveMade (board : list cell) (winner : option outcome)
           (currentPlayer : mark) (gameId : string)
| rematchAccepted (board : list cell) (currentPlayer : mark) (gameId : string)
| playerLeft.

Inductive ack := AckError (error : string) | AckSuccess.

(** [socket.emit], [io.to(room).emit], [socket.join], [socket.leave] and
    the acknowledgement callback.  socket.io puts every connection in a
    room named by its own id, which is how [io.to(player.id)] reaches
    one player.  [UncaughtTypeError] ends a handler that has no
    [try]/[catch] and reads a property of [undefined] or [null]. *)
Inductive action :=
| SocketEmit (ev : event)
| RoomEmit (room : string) (ev : event)
| SocketJoin (room : string)
| SocketLeave (room : string)
| Callback (a : ack)
| UncaughtTypeError.

(** ** Helpers for JavaScript idioms *)

(** [username || dflt]: [undefined] and the empty string are falsy. *)
Definition or_default (username : option string) (dflt : string) : string :=
  match username with
  | Some u => if bool_decide (u = "") then dflt else u
  | None => dflt
  end.

(** [board[i]] for an integer [i]: [None] is [undefined]. *)
Definition board_at (board : list cell) (i : Z) : option cell :=
  if (0 <=? i)%Z then board !! Z.to_nat i else None.

(** [players.find(p => p.id === socket.id)] *)
Definition find_player (sid : string) (ps : list player) : option player :=
  snd <$> list_find (fun p => id p = sid) ps.

(** [players.findIndex(p => p.id === socket.id)], [None] for [-1] *)
Definition findIndex_player (sid : string) (ps : list player) : option nat :=
  fst <$> list_find (fun p => id p = sid) ps.

Definition msg_join_not_found : string :=
  "Game not found. Please check the Game ID.".
Definition msg_join_full : string :=
  "Game is full. Please create a new game.".
Definition msg_join_failed : string := "Failed to join game".
Definition msg_not_found : string := "Game not found".
Definition msg_cell_taken : string := "Space already taken".
Definition msg_not_your_turn : string := "Not your turn".
Definition msg_move_failed : string := "Failed to make move".

(** ** Handlers *)

(** [createGame] (index.js 39-72).  [tok] is
    [Math.random().toString(36).substring(2, 11)] and [rnd] is
    [Math.floor(Math.random() * 1000)]. *)
Definition createGame (sid : string) (uname : option string)
    (tok : string) (rnd : nat) (st : server) : server * list action :=
  let gameId := "game_" +:+ tok in
  let playerName := or_default uname ("Player_" +:+ pretty rnd) in
  let g := {| players := [ {| id := sid; username := playerName;
                               symbol := X; disconnected := false |} ];
              board := emptyBoard;
              currentPlayer := X;
              status := "waiting";
              winner := None |} in
  (set_games st (games_set gameId g (games st)),
   [ SocketJoin gameId;
     SocketEmit (gameCreated gameId playerName (board g)) ]).

(** [joinGame] (index.js 74-113).  On a value that is no record,
    [.players] is [undefined] and [.length] throws inside the [try]. *)
Definition joinGame (sid : string) (gameId : string) (uname : option string)
    (rnd : nat) (st : server) : server * list action :=
  let game := games_lookup gameId st in
  if negb (is_truthy game)
  then (st, [ SocketEmit (joinError msg_join_not_found) ])
  else
    match game with
    | VRecord g =>
        if bool_decide (2 <= length (players g))
        then (st, [ SocketEmit (joinError msg_join_full) ])
        else
          let playerName := or_default uname ("Player_" +:+ pretty rnd) in
          let ps := players g ++ [ {| id := sid; username := playerName;
                                      symbol := O; disconnected := false |} ] in
          let g' := {| players := ps; board := board g;
                       currentPlayer := currentPlayer g;
                       status := "in-progress"; winner := winner g |} in
          (set_games st (games_set gameId g' (games st)),
           [ SocketJoin gameId;
             RoomEmit gameId
               (gameStarted ps (board g') (currentPlayer g') gameId);
             SocketEmit (joinSuccess O gameId) ])
    | _ => (st, [ SocketEmit (joinError msg_join_failed) ])
    end.

(** The checks of [makeMove] on a record (index.js 122-129), in program
    order; [inr p] is the player record found for the socket. *)
Definition validateMove (sid : string) (g : game) (cellIndex : Z)
  : string + player :=
  if bool_decide (board_at (board g) cellIndex = Some None) then
    match find_player sid (players g) with
    | None => inl msg_not_your_turn
    | Some p =>
        if bool_decide (symbol p = currentPlayer g) then inr p
        else inl msg_not_your_turn
    end
  else inl msg_cell_taken.

(** The update of [makeMove] (index.js 131-138).  The assignment
    [game.board[cellIndex] = ...] is only reached after [validateMove]
    read [null] at [cellIndex], so [cellIndex] is an index of the
    array (lemma [board_at_null_range]). *)
Definition applyMove (g : game) (cellIndex : Z) : game :=
  let board' := <[ Z.to_nat cellIndex := Some (currentPlayer g) ]> (board g) in
  let w := checkWinner board' in
  if truthy w
  then {| players := players g; board := board';
          currentPlayer := currentPlayer g;
          status := status g; winner := Some w |}
  else {| players := players g; board := board';
          currentPlayer := flip (currentPlayer g);
          status := status g; winner := winner g |}.

(** [makeMove] (index.js 115-150).  On a value that is no record the
    handler throws inside the [try]: at [game.board[cellIndex]] when
    [game.board] is [undefined], else at [game.players.find] once the
    cell read [null]. *)
Definition makeMove (sid : string) (gameId : string) (cellIndex : Z)
    (st : server) : server * list action :=
  let game := games_lookup gameId st in
  if negb (is_truthy game)
  then (st, [ SocketEmit (moveError msg_not_found) ])
  else
    match game with
    | VRecord g =>
        match validateMove sid g cellIndex with
        | inl err => (st, [ SocketEmit (moveError err) ])
        | inr _ =>
            let g' := applyMove g cellIndex in
            (set_games st (games_set gameId g' (games st)),
             [ RoomEmit gameId
                 (moveMade (board g') (reads_winner st g')
                    (currentPlayer g') gameId) ])
        end
    | _ =>
        match reads_board st game with
        | None => (st, [ SocketEmit (moveError msg_move_failed) ])
        | Some b =>
            if bool_decide (board_at b cellIndex = Some None)
            then (st, [ SocketEmit (moveError msg_move_failed) ])
            else (st, [ SocketEmit (moveError msg_cell_taken) ])
        end
    end.

(** [requestRematch] (index.js 179-204).  On a value that is no record
    the four assignments go to that value, and what is broadcast is
    its [board] and [currentPlayer] after them: nine [null]s and
    ['X'], own or, for a string, inherited. *)
Definition requestRematch (sid : string) (gameId : string) (st : server)
  : server * list action :=
  let game := games_lookup gameId st in
  if negb (is_truthy game)
  then (st, [ Callback (AckError msg_not_found) ])
  else
    match game with
    | VRecord g =>
        let g' := {| players := players g; board := emptyBoard;
                     currentPlayer := X; status := "in-progress";
                     winner := Some NoWinner |} in
        (set_games st (games_set gameId g' (games st)),
         [ RoomEmit gameId
             (rematchAccepted (board g') (currentPlayer g') gameId);
           Callback AckSuccess ])
    | _ =>
        (reset_inherited st game,
         [ RoomEmit gameId (rematchAccepted emptyBoard X gameId);
           Callback AckSuccess ])
    end.

(** The removal shared by [disconnect] (index.js 213-219) and
    [leaveGame] (index.js 230-235): [splice(playerIndex, 1)], then
    notify [players[0]] or delete the record. *)
Definition removePlayer (gameId : string) (g : game) (playerIndex : nat)
    (st : server) : server * list action :=
  let ps := delete playerIndex (players g) in
  match ps with
  | p :: _ =>
      (set_games st
         (games_set gameId
            {| players := ps; board := board g;
               currentPlayer := currentPlayer g;
               status := status g; winner := winner g |} (games st)),
       [ RoomEmit (id p) playerLeft ])
  | [] => (set_games st (games_delete gameId (games st)), [])
  end.

(** The [for (const gameId in games)] loop of [disconnect]
    (index.js 208-222) over the enumerated keys, with its [break].
    For a value that is no record, [game?.players?.findIndex(...)] is
    [undefined], which is not [-1], and [game.players.splice] throws. *)
Fixpoint disconnect_scan (sid : string) (keys : list string) (st : server)
  : server * list action :=
  match keys with
  | [] => (st, [])
  | gameId :: rest =>
      match games_lookup gameId st with
      | VRecord g =>
          match findIndex_player sid (players g) with
          | Some playerIndex => removePlayer gameId g playerIndex st
          | None => disconnect_scan sid rest st
          end
      | _ => (st, [ UncaughtTypeError ])
      end
  end.

(** [disconnect] (index.js 206-223) *)
Definition disconnect (sid : string) (st : server) : server * list action :=
  disconnect_scan sid (enumerated st) st.

(** [leaveGame] (index.js 225-239).  There is no [try]: on a truthy
    value that is no record, [game.players.findIndex] throws before
    [socket.leave]. *)
Definition leaveGame (sid : string) (gameId : string) (st : server)
  : server * list action :=
  let game := games_lookup gameId st in
  if is_truthy game then
    match game with
    | VRecord g =>
        let r :=
          match findIndex_player sid (players g) with
          | Some playerIndex => removePlayer gameId g playerIndex st
          | None => (st, [])
          end in
        (r.1, r.2 ++ [ SocketLeave gameId ])
    | _ => (st, [ UncaughtTypeError ])
    end
  else (st, [ SocketLeave gameId ]).

(** ** The server as a transition system *)

Inductive request :=
| CreateGame (uname : option string) (tok : string) (rnd : nat)
| JoinGame (gameId : string) (uname : option string) (rnd : nat)
| MakeMove (gameId : string) (cellIndex : Z)
| RequestRematch (gameId : string)
| Disconnect
| LeaveGame (gameId : string).

Definition handle (sid : string) (r : request) (st : server)
  : server * list action :=
  match r with
  | CreateGame uname tok rnd => createGame sid uname tok rnd st
  | JoinGame gameId uname rnd => joinGame sid gameId uname rnd st
  | MakeMove gameId cellIndex => makeMove sid gameId cellIndex st
  | RequestRematch gameId => requestRematch sid gameId st
  | Disconnect => disconnect sid st
  | LeaveGame gameId => leaveGame sid gameId st
  end.

(** The state after the events [evs], each tagged with its socket id.
    What becomes of the process after an uncaught exception is not
    modelled: the run goes on as if it survived, which can only add
    reachable states. *)
Definition run (evs : list (string * request)) (st : server) : server :=
  fold_left (fun s e => (handle e.1 e.2 s).1) evs st.

Definition reachable (st : server) : Prop :=
  exists evs, run evs init = st.

(** [winner != none]: the field holds a symbol or ['Tie']. *)
Definition decided (g : game) : Prop :=
  exists w, winner g = Some w /\ w <> NoWinner.

(** ** Statements about players and leaving *)

(** Socket [sid] has a player record in [g]. *)
Definition participant (sid : string) (g : game) : Prop :=
  exists p, p ∈ players g /\ id p = sid.

(** [p], at index [i], is the first record of [ps] with the id [sid]. *)
Definition first_record (sid : string) (ps : list player) (i : nat)
    (p : player) : Prop :=
  ps !! i = Some p /\ id p = sid /\
  forall j q, j < i -> ps !! j = Some q -> id q <> sid.

(** [st'] and [acts] are what remains after socket [sid] was taken out
    of game [gameId]: the first record with its id is gone from the
    player list and the other records keep their order; when players
    remain the record stays, with the other fields as they were, and
    the first remaining player's room is sent [playerLeft]; when none
    remains the id has no record any more.  No other game changes, and
    nothing inherited changes. *)
Definition removed_from (sid gameId : string) (st st' : server)
    (acts : list action) : Prop :=
  exists g i p,
    games_get gameId (games st) = Some g /\
    first_record sid (players g) i p /\
    (forall k, k <> gameId ->
               games_get k (games st') = games_get k (games st)) /\
    protoReset st' = protoReset st /\
    methodsReset st' = methodsReset st /\
    match take i (players g) ++ drop (S i) (players g) with
    | q :: rest =>
        games_get gameId (games st')
        = Some {| players := q :: rest; board := board g;
                  currentPlayer := currentPlayer g;
                  status := status g; winner := winner g |} /\
        acts = [ RoomEmit (id q) playerLeft ]
    | [] =>
        games_get gameId (games st') = None /\
        acts = []
    end.

(** Looking [gameId] up in [st] finds nothing: the three handlers that
    answer not found do so and change nothing. *)
Definition not_found (gameId : string) (st : server) : Prop :=
  (forall sid uname rnd,
     joinGame sid gameId uname rnd st
     = (st, [ SocketEmit (joinError msg_join_not_found) ])) /\
  (forall sid cellIndex,
     makeMove sid gameId cellIndex st
     = (st, [ SocketEmit (moveError msg_not_found) ])) /\
  (forall sid,
     requestRematch sid gameId st
     = (st, [ Callback (AckError msg_not_found) ])).

(** [gameId] is the first id, in enumeration order, whose game holds
    the socket. *)
Definition first_game_of (sid gameId : string) (st : server) : Prop :=
  exists pre post g,
    map fst (games st) = pre ++ gameId :: post /\
    (forall k g0, k ∈ pre -> games_get k (games st) = Some g0 ->
                  ~ participant sid g0) /\
    games_get gameId (games st) = Some g /\ participant sid g.

(** ** Invariant of the reachable states *)

(** A decided [winner] is what [checkWinner] says of the board, and
    every uniform line holds the symbol of [currentPlayer]. *)
Definition play_ok (g : game) : Prop :=
  (forall w, winner g = Some w -> truthy w = true ->
             checkWinner (board g) = w) /\
  (forall p s, p ∈ lines -> uniform (board g) p s -> s = currentPlayer g).

Definition game_ok (g : game) : Prop :=
  length (board g) = 9 /\
  1 <= length (players g) <= 2 /\
  (status g = "waiting" \/ status g = "in-progress") /\
  (status g = "waiting" -> length (players g) = 1) /\
  play_ok g.

Definition store_ok (games : store) : Prop :=
  NoDup (map fst games) /\ Forall (fun kg => game_ok kg.2) games.

(** ** Statements about status, finished games and fresh ids *)

(** The status field follows the winner and the number of players. *)
Definition status_tracks_state (g : game) : Prop :=
  (status g = "finished" <-> decided g) /\
  (status g = "waiting" <-> length (players g) < 2).

(** This [makeMove] fails and leaves the state alone. *)
Definition move_refused (sid gameId : string) (cellIndex : Z) (st : server)
  : Prop :=
  (makeMove sid gameId cellIndex st).1 = st /\
  exists err,
    (makeMove sid gameId cellIndex st).2 = [ SocketEmit (moveError err) ].

(** Every [makeMove] on game [gameId] fails and leaves the state alone. *)
Definition moves_refused (gameId : string) (st : server) : Prop :=
  forall sid cellIndex, move_refused sid gameId cellIndex st.

(** Every game of [games] is still there, unchanged, in [games']. *)
Definition none_displaced (games games' : store) : Prop :=
  forall k g, games_get k games = Some g -> games_get k games' = Some g.

(** The move the specification calls valid: the game exists, the cell is
    empty, and some player record of the game carries the socket's id
    and the symbol of [currentPlayer]. *)
Definition valid_move (sid gameId : string) (cellIndex : Z) (st : server)
    (g : game) : Prop :=
  games_get gameId (games st) = Some g /\
  board_at (board g) cellIndex = Some None /\
  exists p, p ∈ players g /\ id p = sid /\ symbol p = currentPlayer g.

(** The move was applied: the cell now holds the former
    [currentPlayer]'s symbol. *)
Definition move_applied (sid gameId : string) (cellIndex : Z) (st : server)
    (g : game) : Prop :=
  exists g',
    games_get gameId (games (makeMove sid gameId cellIndex st).1) = Some g' /\
    board_at (board g') cellIndex = Some (Some (currentPlayer g)).

(** ** Sample runs *)

(** The state with the own records [gs] and nothing written on
    inherited objects. *)
Definition with_games (gs : store) : server := set_games init gs.

(** Two sockets open and join game_a. *)
Definition opening : list (string * request) :=
  [ ("s1", CreateGame (Some "ann") "a" 0);
    ("s2", JoinGame "game_a" (Some "bob") 0) ].

(** X takes the top row: X0 O3 X1 O4 X2. *)
Definition x_wins : list (string * request) :=
  opening ++
  [ ("s1", MakeMove "game_a" 0); ("s2", MakeMove "game_a" 3);
    ("s1", MakeMove "game_a" 1); ("s2", MakeMove "game_a" 4);
    ("s1", MakeMove "game_a" 2) ].

(** Nine moves that fill the board as X O X / X O O / O X X. *)
Definition tie_game : list (string * request) :=
  opening ++
  [ ("s1", MakeMove "game_a" 0); ("s2", MakeMove "game_a" 1);
    ("s1", MakeMove "game_a" 2); ("s2", MakeMove "game_a" 4);
    ("s1", MakeMove "game_a" 3); ("s2", MakeMove "game_a" 5);
    ("s1", MakeMove "game_a" 7); ("s2", MakeMove "game_a" 6);
    ("s1", MakeMove "game_a" 8) ].

Definition ann : player :=
  {| id := "s1"; username := "ann"; symbol := X; disconnected := false |}.
Definition bob : player :=
  {| id := "s2"; username := "bob"; symbol := O; disconnected := false |}.

(** The game after [x_wins]. *)
Definition x_won : game :=
  {| players := [ann; bob];
     board := [Some X; Some X; Some X; Some O; Some O; None; None; None; None];
     currentPlayer := X;
     status := "in-progress";
     winner := Some (Win X) |}.

(** The game after [tie_game]. *)
Definition tied : game :=
  {| players := [ann; bob];
     board := [Some X; Some O; Some X; Some X; Some O; Some O;
               Some O; Some X; Some X];
     currentPlayer := X;
     status := "in-progress";
     winner := Some Tie |}.

(** The game after [opening] and X's move on cell 0. *)
Definition x_opened : game :=
  {| players := [ann; bob];
     board := [Some X; None; None; None; None; None; None; None; None];
     currentPlayer := O;
     status := "in-progress";
     winner := None |}.

(** A socket creates a game, joins it itself and makes the first
    move. *)
Definition self_join : list (string * request) :=
  [ ("s1", CreateGame (Some "ann") "a" 0);
    ("s1", JoinGame "game_a" (Some "ann") 0);
    ("s1", MakeMove "game_a" 0) ].

(** The game after [self_join]: both records carry the id of the one
    socket, and it is O's turn. *)
Definition own_opponent : game :=
  {| players := [ ann;
                  {| id := "s1"; username := "ann"; symbol := O;
                     disconnected := false |} ];
     board := [Some X; None; None; None; None; None; None; None; None];
     currentPlayer := O;
     status := "in-progress";
     winner := None |}.

(** A rematch is requested for the id [__proto__] before anything
    else. *)
Definition proto_rematch : list (string * request) :=
  [ ("s1", RequestRematch "__proto__") ].

(** The state after [proto_rematch]. *)
Definition reset_prototype : server :=
  {| games := []; protoReset := true; methodsReset := [] |}.

(** ** Chat relay: [sendMessage] (index.js 152-177) *)

(** [s.replace(/c/g, rep)] for a one-character pattern [c]. *)
Fixpoint replace_char (c : Ascii.ascii) (rep : string) (s : string) : string :=
  match s with
  | EmptyString => EmptyString
  | String a rest =>
      if Ascii.eqb a c then rep +:+ replace_char c rep rest
      else String a (replace_char c rep rest)
  end.

(** [message.replace(/</g, "&lt;").replace(/>/g, "&gt;")] *)
Definition escape (message : string) : string :=
  replace_char ">"%char "&gt;" (replace_char "<"%char "&lt;" message).

(** Number of occurrences of the character [c] in [s]. *)
Fixpoint count_char (c : Ascii.ascii) (s : string) : nat :=
  match s with
  | EmptyString => 0
  | String a rest => (if Ascii.eqb a c then 1 else 0) + count_char c rest
  end.

Inductive chat_event :=
| messageReceived (gameId sender senderId message timestamp : string)
| messageSent (gameId sender senderId message timestamp : string).

(** [socket.broadcast.to(room).emit] (everyone in the room but the
    sender) and [socket.emit]. *)
Inductive chat_action :=
| BroadcastEmit (room : string) (ev : chat_event)
| ChatEmit (ev : chat_event).

(** [ts1] and [ts2] are the two results of
    [new Date().toLocaleTimeString()].  The handler only tests
    [games[gameId]] for truthiness: an inherited object passes. *)
Definition sendMessage (sid gameId message sender senderId ts1 ts2 : string)
    (st : server) : server * list chat_action :=
  if negb (is_truthy (games_lookup gameId st)) then (st, [])
  else
    let safeMessage := escape message in
    (st,
     [ BroadcastEmit gameId
         (messageReceived gameId sender senderId safeMessage ts1);
       ChatEmit (messageSent gameId "You" senderId safeMessage ts2) ]).

(** The message field of a chat action. *)
Definition chat_text (a : chat_action) : string :=
  match a with
  | BroadcastEmit _ (messageReceived _ _ _ m _)
  | BroadcastEmit _ (messageSent _ _ _ m _)
  | ChatEmit (messageReceived _ _ _ m _)
  | ChatEmit (messageSent _ _ _ m _) => m
  end.

(** The sender name and the sender id of a chat action. *)
Definition chat_sender (a : chat_action) : string :=
  match a with
  | BroadcastEmit _ (messageReceived _ s _ _ _)
  | BroadcastEmit _ (messageSent _ s _ _ _)
  | ChatEmit (messageReceived _ s _ _ _)
  | ChatEmit (messageSent _ s _ _ _) => s
  end.

Definition chat_senderId (a : chat_action) : string :=
  match a with
  | BroadcastEmit _ (messageReceived _ _ i _ _)
  | BroadcastEmit _ (messageSent _ _ i _ _)
  | ChatEmit (messageReceived _ _ i _ _)
  | ChatEmit (messageSent _ _ i _ _) => i
  end.

(** ** Further statements *)

(** The board with the two symbols exchanged. *)
Definition swap_board (board : list cell) : list cell :=
  (fun c : cell => flip <$> c) <$> board.

(** Number of cells that hold a symbol. *)
Definition marked (board : list cell) : nat :=
  length (filter (fun c : cell => is_Some c) board).

Definition swap_outcome (w : outcome) : outcome :=
  match w with
  | NoWinner => NoWinner
  | Win s => Win (flip s)
  | Tie => Tie
  end.

(** Who sits where: at most two players, the second one holds ['O'],
    and a game that is still waiting has its creator, holding ['X']. *)
Definition seats_ok (g : game) : Prop :=
  length (players g) <= 2 /\
  (forall p, players g !! 1 = Some p -> symbol p = O) /\
  (status g = "waiting" -> exists p, players g = [p] /\ symbol p = X).

(** The value is [Object.prototype]. *)
Definition is_prototype (v : jsval) : bool :=
  match v with
  | VObjectPrototype => true
  | _ => false
  end.

(** The request is a rematch for an id under which [games] finds
    [Object.prototype]. *)
Definition resets_prototype (r : request) (st : server) : bool :=
  match r with
  | RequestRematch k => is_prototype (games_lookup k st)
  | _ => false
  end.

(** The request names the id [gameId]. *)
Definition addresses (r : request) (gameId : string) : Prop :=
  match r with
  | JoinGame k _ _ | MakeMove k _ | RequestRematch k | LeaveGame k =>
      k = gameId
  | CreateGame _ _ _ | Disconnect => False
  end.

(** X's socket leaves game_a and a third socket joins: both seats
    hold ['O']. *)
Definition both_O : list (string * request) :=
  opening ++ [ ("s1", LeaveGame "game_a");
               ("s3", JoinGame "game_a" (Some "cy") 0) ].

Definition cy : player :=
  {| id := "s3"; username := "cy"; symbol := O; disconnected := false |}.

Definition two_O : game :=
  {| players := [bob; cy]; board := emptyBoard; currentPlayer := X;
     status := "in-progress"; winner := None |}.

(** The game after [opening]. *)
Definition started : game :=
  {| players := [ann; bob]; board := emptyBoard; currentPlayer := X;
     status := "in-progress"; winner := None |}.

(** The game after the creator's [createGame] alone. *)
Definition waiting_game : game :=
  {| players := [ann]; board := emptyBoard; currentPlayer := X;
     status := "waiting"; winner := None |}.

(** * Properties *)

Lemma winPatterns_lines : winPatterns = lines.
Proof. reflexivity. Qed.

Lemma wins_uniform board p s : wins board p = Some s <-> uniform board p s.
Proof.
  destruct p as [[a b] c]. unfold wins, uniform. simpl.
  destruct (board !! a) as [[s0|]|];
    [|split; [discriminate | intros (Hu & _); discriminate]..].
  repeat case_bool_decide; simpl; split; intros Hu; try discriminate;
    try (injection Hu as ->); try destruct Hu as (H1 & H2 & H3);
    try congruence.
  split_and!; congruence.
Qed.

Lemma wins_None board p : wins board p = None <-> forall s, ~ uniform board p s.
Proof.
  split.
  - intros H s Hu. apply wins_uniform in Hu. congruence.
  - intros H. destruct (wins board p) as [s|] eqn:E; [|done].
    apply wins_uniform in E. destruct (H s E).
Qed.

(** The loop returns [s] exactly when the first uniform pattern of the
    list holds [s]. *)
Lemma firstWin_Some board ps s :
  firstWin board ps = Some s <->
  exists pre p post, ps = pre ++ p :: post /\ uniform board p s /\
                     forall q s', q ∈ pre -> ~ uniform board q s'.
Proof.
  induction ps as [|p0 ps IH]; simpl.
  - split; [discriminate|]. intros (pre & p & post & E & _).
    destruct pre; discriminate.
  - destruct (wins board p0) as [s0|] eqn:E.
    + apply wins_uniform in E. split.
      * intros [= ->]. exists [], p0, ps. split_and!; [done|done|].
        intros q s' Hq. inversion Hq.
      * intros (pre & p' & post & Eq & Hu & Hpre).
        destruct pre as [|q pre]; simpl in Eq; injection Eq as <- ->.
        -- destruct E as (E1 & _), Hu as (H1 & _). congruence.
        -- exfalso. apply (Hpre p0 s0); [left | done].
    + rewrite IH. split.
      * intros (pre & p' & post & -> & Hu & Hpre).
        exists (p0 :: pre), p', post. split_and!; [done|done|].
        intros q s' Hq. apply elem_of_cons in Hq as [-> | Hq].
        -- eapply wins_None in E. exact E.
        -- by apply Hpre.
      * intros (pre & p' & post & Eq & Hu & Hpre).
        destruct pre as [|q pre]; simpl in Eq; injection Eq as <- ->.
        -- apply wins_uniform in Hu. congruence.
        -- exists pre, p', post. split_and!; [done|done|].
           intros q' s' Hq'. apply Hpre. by right.
Qed.

Lemma firstWin_None board ps :
  firstWin board ps = None <-> forall p s, p ∈ ps -> ~ uniform board p s.
Proof.
  induction ps as [|p ps IH]; simpl.
  - split; [|done]. intros _ p s Hp. inversion Hp.
  - destruct (wins board p) as [s0|] eqn:E.
    + split; [discriminate|]. intros H. apply wins_uniform in E.
      destruct (H p s0); [left | done].
    + rewrite IH. split.
      * intros H q s Hq. apply elem_of_cons in Hq as [-> | Hq].
        -- eapply wins_None in E. exact E.
        -- by apply H.
      * intros H q s Hq. apply H. by right.
Qed.

Lemma includes_null_true (board : list cell) :
  includes_null board = true <-> None ∈ board.
Proof.
  unfold includes_null. rewrite existsb_exists. split.
  - intros (c & Hin & Hc). destruct c; [discriminate|].
    by apply list_elem_of_In.
  - intros H. exists None. split; [by apply list_elem_of_In | done].
Qed.

Lemma includes_null_false (board : list cell) :
  includes_null board = false <-> None ∉ board.
Proof.
  rewrite <- includes_null_true. destruct (includes_null board); split; try done.
Qed.

(** ** Properties of [checkWinner] *)

Lemma checkWinner_Win board s :
  checkWinner board = Win s <-> exists p, first_line board p s.
Proof.
  unfold checkWinner, first_line. rewrite <- winPatterns_lines.
  destruct (firstWin board winPatterns) as [s0|] eqn:E.
  - split.
    + intros [= ->]. apply firstWin_Some in E as (pre & p & post & H).
      by exists p, pre, post.
    + intros (p & pre & post & H).
      assert (firstWin board winPatterns = Some s) as E'
        by (apply firstWin_Some; by exists pre, p, post).
      congruence.
  - split.
    + destruct (includes_null board); discriminate.
    + intros (p & pre & post & H).
      assert (firstWin board winPatterns = Some s) as E'
        by (apply firstWin_Some; by exists pre, p, post).
      congruence.
Qed.

Lemma firstWin_has_line board :
  is_Some (firstWin board winPatterns) <-> has_line board.
Proof.
  unfold has_line. rewrite <- winPatterns_lines. split.
  - intros [s E]. apply firstWin_Some in E as (pre & p & post & -> & Hu & _).
    exists p, s. split; [|done]. apply elem_of_app. right. by left.
  - intros (p & s & Hp & Hu).
    destruct (firstWin board winPatterns) as [s0|] eqn:E; [by eexists|].
    exfalso. eapply firstWin_None in E; eauto.
Qed.

Lemma checkWinner_Tie board :
  checkWinner board = Tie <-> (None ∉ board) /\ ~ has_line board.
Proof.
  rewrite <- firstWin_has_line, <- includes_null_false. unfold checkWinner.
  destruct (firstWin board winPatterns) as [s0|] eqn:E.
  - split; [discriminate|]. intros [_ H]. destruct H. by eexists.
  - destruct (includes_null board).
    + split; [discriminate | intros [? _]; discriminate].
    + split; [intros _; split; [done | by intros [? ?]] | done].
Qed.

Lemma checkWinner_NoWinner board :
  checkWinner board = NoWinner <-> (None ∈ board) /\ ~ has_line board.
Proof.
  rewrite <- firstWin_has_line, <- includes_null_true. unfold checkWinner.
  destruct (firstWin board winPatterns) as [s0|] eqn:E.
  - split; [discriminate|]. intros [_ H]. destruct H. by eexists.
  - destruct (includes_null board).
    + split; [intros _; split; [done | by intros [? ?]] | done].
    + split; [discriminate | intros [? _]; discriminate].
Qed.

Lemma checkWinner_some_Win board :
  (exists s, checkWinner board = Win s) <-> has_line board.
Proof.
  rewrite <- firstWin_has_line. unfold checkWinner.
  destruct (firstWin board winPatterns) as [s0|] eqn:E.
  - split; [by eexists | by exists s0].
  - split; [|by intros [? ?]].
    intros [s H]. destruct (includes_null board); discriminate.
Qed.

(** When no line holds the other symbol, any uniform line decides. *)
Lemma checkWinner_Win_one_symbol board s :
  (forall p, p ∈ lines -> ~ uniform board p (flip s)) ->
  (checkWinner board = Win s <-> exists p, p ∈ lines /\ uniform board p s).
Proof.
  intros Hother. rewrite checkWinner_Win. split.
  - intros (p & pre & post & E & Hu & _). exists p. split; [|done].
    rewrite E. apply elem_of_app. right. by left.
  - intros (p & Hp & Hu).
    assert (has_line board) as HL by (by exists p, s).
    apply checkWinner_some_Win in HL as [s0 HW].
    apply checkWinner_Win in HW as (p0 & HW). exists p0.
    destruct (decide (s0 = s)) as [<- | Hne]; [done|].
    exfalso. destruct HW as (pre & post & E' & Hu0 & _).
    apply (Hother p0).
    + rewrite E'. apply elem_of_app. right. by left.
    + destruct s, s0; simpl; done.
Qed.

(** C1.  For every 9-cell board, [checkWinner] returns [Win s] exactly
    when some row, column or diagonal is uniformly a symbol and [s] is
    the symbol of the first such line in the order rows, columns,
    diagonals; in particular it returns some [Win] iff some line is
    uniform, and [Win s] iff some line is uniformly [s] whenever no line
    is uniformly the other symbol.  It returns [Tie] iff no cell is
    empty and no line is uniform, and [NoWinner] (null) in the one
    remaining case: an empty cell and no uniform line. *)
Theorem checkWinner_spec (board : list cell) (Hlen : length board = 9) :
  (forall s, checkWinner board = Win s <-> exists p, first_line board p s) /\
  ((exists s, checkWinner board = Win s) <-> has_line board) /\
  (forall s, (forall p, p ∈ lines -> ~ uniform board p (flip s)) ->
     (checkWinner board = Win s <-> exists p, p ∈ lines /\ uniform board p s)) /\
  (checkWinner board = Tie <-> (None ∉ board) /\ ~ has_line board) /\
  (checkWinner board = NoWinner <-> (None ∈ board) /\ ~ has_line board).
Proof.
  split_and!.
  - intros s. apply checkWinner_Win.
  - apply checkWinner_some_Win.
  - intros s. apply checkWinner_Win_one_symbol.
  - apply checkWinner_Tie.
  - apply checkWinner_NoWinner.
Qed.

Lemma checkWinner_spec_witness :
  length [Some X; Some X; Some X; None; Some O; Some O; None; None; None] = 9 /\
  (checkWinner [Some X; Some X; Some X; None; Some O; Some O; None; None; None]
     = Tie <->
   (None ∉ [Some X; Some X; Some X; None; Some O; Some O; None; None; None]) /\
   ~ has_line [Some X; Some X; Some X; None; Some O; Some O; None; None; None]).
Proof.
  split; [reflexivity|].
  apply (checkWinner_spec
           [Some X; Some X; Some X; None; Some O; Some O; None; None; None]).
  reflexivity.
Defined.

(** The two boards of the specification's examples. *)
Example checkWinner_row0 :
  checkWinner [Some X; Some X; Some X; None; Some O; Some O; None; None; None]
  = Win X.
Proof. reflexivity. Qed.

Example checkWinner_full_board :
  checkWinner [Some X; Some O; Some X; Some X; Some O; Some O;
               Some O; Some X; Some X] = Tie.
Proof. reflexivity. Qed.

(** With a line of each symbol the earlier line decides. *)
Example checkWinner_two_lines :
  checkWinner [Some O; Some O; Some O; Some X; Some X; Some X; None; None; None]
  = Win O.
Proof. reflexivity. Qed.

(** ** The table *)

Lemma games_get_set_eq k g (games : store) :
  games_get k (games_set k g games) = Some g.
Proof.
  induction games as [|[k0 g0] rest IH]; simpl.
  - by rewrite bool_decide_eq_true_2.
  - case_bool_decide as Hk; simpl.
    + by rewrite bool_decide_eq_true_2.
    + by rewrite bool_decide_eq_false_2.
Qed.

Lemma games_get_set_ne k k' g (games : store) :
  k <> k' -> games_get k' (games_set k g games) = games_get k' games.
Proof.
  intros Hne. induction games as [|[k0 g0] rest IH]; simpl.
  - by rewrite bool_decide_eq_false_2.
  - case_bool_decide as Hk; simpl.
    + subst k0. by rewrite !bool_decide_eq_false_2.
    + by rewrite IH.
Qed.

Lemma games_get_delete_eq k (games : store) :
  games_get k (games_delete k games) = None.
Proof.
  induction games as [|[k0 g0] rest IH]; simpl; [done|].
  case_bool_decide as Hk; simpl; [done|].
  by rewrite bool_decide_eq_false_2.
Qed.

Lemma games_get_delete_ne k k' (games : store) :
  k <> k' -> games_get k' (games_delete k games) = games_get k' games.
Proof.
  intros Hne. induction games as [|[k0 g0] rest IH]; simpl; [done|].
  case_bool_decide as Hk; simpl.
  - subst k0. by rewrite bool_decide_eq_false_2.
  - by rewrite IH.
Qed.

Lemma games_get_elem_of k g (games : store) :
  games_get k games = Some g -> (k, g) ∈ games.
Proof.
  induction games as [|[k0 g0] rest IH]; simpl; [done|].
  case_bool_decide as Hk.
  - intros [= ->]. subst. by left.
  - intros H. right. by apply IH.
Qed.

Lemma games_get_None k (games : store) :
  games_get k games = None <-> k ∉ map fst games.
Proof.
  induction games as [|[k0 g0] rest IH]; simpl.
  - split; [|done]. intros _ H. inversion H.
  - case_bool_decide as Hk.
    + split; [done|]. intros H. destruct H. subst. by left.
    + rewrite IH, not_elem_of_cons.
      split; [intros H; split; [congruence | done] | by intros [_ ?]].
Qed.

(** Every enumerated key has a record. *)
Lemma games_get_key k (games : store) :
  k ∈ map fst games -> is_Some (games_get k games).
Proof.
  intros Hk. destruct (games_get k games) eqn:E; [by eexists|].
  by apply games_get_None in E.
Qed.

Lemma games_set_keys_present k g (games : store) :
  k ∈ map fst games -> map fst (games_set k g games) = map fst games.
Proof.
  induction games as [|[k0 g0] rest IH]; simpl.
  - intros H. inversion H.
  - intros H. case_bool_decide as Hk; simpl; [done|].
    f_equal. apply IH. apply elem_of_cons in H as [H|H]; [congruence|done].
Qed.

Lemma games_set_keys_fresh k g (games : store) :
  k ∉ map fst games -> games_set k g games = games ++ [(k, g)].
Proof.
  induction games as [|[k0 g0] rest IH]; simpl; [done|].
  intros H. apply not_elem_of_cons in H as [H1 H2].
  rewrite bool_decide_eq_false_2 by congruence. f_equal. by apply IH.
Qed.

Lemma games_set_NoDup k g (games : store) :
  NoDup (map fst games) -> NoDup (map fst (games_set k g games)).
Proof.
  intros H. destruct (decide (k ∈ map fst games)) as [Hin|Hnin].
  - by rewrite games_set_keys_present.
  - rewrite games_set_keys_fresh, map_app by done. simpl.
    apply NoDup_app. split_and!; [done| |apply NoDup_singleton].
    intros x Hx Hx'. apply list_elem_of_singleton in Hx'. by subst.
Qed.

Lemma games_delete_keys k (games : store) :
  map fst (games_delete k games) = filter (fun k' => k' <> k) (map fst games).
Proof.
  induction games as [|[k0 g0] rest IH]; simpl; [done|].
  case_bool_decide as Hk; simpl.
  - rewrite filter_cons_False by (simpl; tauto). done.
  - rewrite filter_cons_True by done. by rewrite IH.
Qed.

Lemma games_delete_NoDup k (games : store) :
  NoDup (map fst games) -> NoDup (map fst (games_delete k games)).
Proof. intros H. rewrite games_delete_keys. by apply NoDup_filter. Qed.

Lemma Forall_games_set (P : string * game -> Prop) k g (games : store) :
  (forall k', P (k', g)) -> Forall P games -> Forall P (games_set k g games).
Proof.
  intros Hg. induction 1 as [|[k0 g0] rest H0 Hrest IH]; simpl.
  - by repeat constructor.
  - case_bool_decide; constructor; done.
Qed.

Lemma Forall_games_delete (P : string * game -> Prop) k (games : store) :
  Forall P games -> Forall P (games_delete k games).
Proof.
  induction 1 as [|[k0 g0] rest H0 Hrest IH]; simpl; [done|].
  case_bool_decide; [done|]. by constructor.
Qed.

(** ** Reading and writing the board *)

Lemma board_at_Some_range (board : list cell) i c :
  board_at board i = Some c -> (0 <= i < Z.of_nat (length board))%Z.
Proof.
  unfold board_at. destruct (Z.leb_spec 0 i) as [Hi|Hi]; [|done].
  intros H. apply lookup_lt_Some in H. lia.
Qed.

(** The cell the move writes to is an index of the array. *)
Lemma board_at_null_range (board : list cell) i :
  board_at board i = Some None -> (0 <= i < Z.of_nat (length board))%Z.
Proof. apply board_at_Some_range. Qed.

Lemma board_at_out_of_range (board : list cell) i :
  (i < 0 \/ Z.of_nat (length board) <= i)%Z -> board_at board i = None.
Proof.
  intros H. destruct (board_at board i) eqn:E; [|done].
  apply board_at_Some_range in E. lia.
Qed.

Lemma board_at_insert_eq (board : list cell) i c :
  (0 <= i < Z.of_nat (length board))%Z ->
  board_at (<[Z.to_nat i := c]> board) i = Some c.
Proof.
  intros H. unfold board_at. destruct (Z.leb_spec 0 i); [|lia].
  apply list_lookup_insert_eq. lia.
Qed.

Lemma board_at_insert_ne (board : list cell) i j c :
  (0 <= i)%Z -> i <> j ->
  board_at (<[Z.to_nat i := c]> board) j = board_at board j.
Proof.
  intros Hi Hne. unfold board_at. destruct (Z.leb_spec 0 j); [|done].
  apply list_lookup_insert_ne. lia.
Qed.

Lemma board_at_elem_of (board : list cell) i c :
  board_at board i = Some c -> c ∈ board.
Proof.
  unfold board_at. destruct (0 <=? i)%Z; [|done].
  intros H. apply list_elem_of_lookup. eauto.
Qed.

(** ** Looking a socket up in the player list *)

Lemma find_player_Some sid ps p :
  find_player sid ps = Some p -> p ∈ ps /\ id p = sid.
Proof.
  unfold find_player. destruct (list_find _ ps) as [[i q]|] eqn:E; [|done].
  intros [= <-]. apply list_find_Some in E as (Hi & Hq & _).
  split; [|done]. apply list_elem_of_lookup. eauto.
Qed.

Lemma find_player_None sid ps :
  find_player sid ps = None <-> forall p, p ∈ ps -> id p <> sid.
Proof.
  unfold find_player. rewrite fmap_None, list_find_None, Forall_forall.
  done.
Qed.

(** When the ids of a player list are pairwise distinct, the record
    found for a socket is the one record carrying its id. *)
Lemma find_player_unique sid ps p :
  NoDup (map id ps) -> p ∈ ps -> id p = sid -> find_player sid ps = Some p.
Proof.
  intros Hnd Hp Hid. destruct (find_player sid ps) as [q|] eqn:E.
  - apply find_player_Some in E as [Hq Hq']. f_equal.
    apply list_elem_of_lookup in Hp as [i Hi], Hq as [j Hj].
    assert (i = j) as ->; [|congruence].
    eapply NoDup_lookup; [exact Hnd| |]; rewrite list_lookup_fmap.
    + by rewrite Hi.
    + rewrite Hj. simpl. congruence.
  - exfalso. eapply find_player_None in E; eauto.
Qed.

Lemma findIndex_player_Some sid ps i :
  findIndex_player sid ps = Some i ->
  exists p, ps !! i = Some p /\ id p = sid /\
            forall j q, ps !! j = Some q -> j < i -> id q <> sid.
Proof.
  unfold findIndex_player.
  destruct (list_find _ ps) as [[i0 q]|] eqn:E; [|done].
  intros [= <-]. apply list_find_Some in E. by exists q.
Qed.

Lemma findIndex_player_None sid ps :
  findIndex_player sid ps = None <-> forall p, p ∈ ps -> id p <> sid.
Proof.
  unfold findIndex_player. rewrite fmap_None, list_find_None, Forall_forall.
  done.
Qed.

(** ** Looking an id up *)

Lemma games_lookup_record gameId (st : server) g :
  games_get gameId (games st) = Some g -> games_lookup gameId st = VRecord g.
Proof. intros H. unfold games_lookup. by rewrite H. Qed.

Lemma games_lookup_own_None gameId (st : server) :
  games_get gameId (games st) = None ->
  games_lookup gameId st = inherited st gameId.
Proof. intros H. unfold games_lookup. by rewrite H. Qed.

(** What is inherited is never a game record. *)
Lemma inherited_not_record (st : server) k g : inherited st k <> VRecord g.
Proof. unfold inherited. repeat case_match; discriminate. Qed.

(** An id made by [createGame] is no name of an inherited property. *)
Lemma inherited_created (st : server) tok :
  inherited st ("game_" +:+ tok) = VUndefined.
Proof. unfold inherited. simpl. by destruct (protoReset st). Qed.

Lemma games_lookup_created_None (st : server) tok :
  games_get ("game_" +:+ tok) (games st) = None ->
  games_lookup ("game_" +:+ tok) st = VUndefined.
Proof.
  intros H. rewrite games_lookup_own_None by done. apply inherited_created.
Qed.

(** Where the lookup finds nothing, the three guarded handlers answer
    not found. *)
Lemma not_found_falsy gameId (st : server) :
  is_truthy (games_lookup gameId st) = false -> not_found gameId st.
Proof.
  intros H. unfold not_found, joinGame, makeMove, requestRematch.
  rewrite H. simpl. done.
Qed.

(** ** The handlers on a stored record *)

Lemma joinGame_record sid gameId uname rnd (st : server) g :
  games_get gameId (games st) = Some g ->
  joinGame sid gameId uname rnd st
  = if bool_decide (2 <= length (players g))
    then (st, [ SocketEmit (joinError msg_join_full) ])
    else
      (set_games st
         (games_set gameId
            {| players := players g ++
                 [ {| id := sid;
                      username := or_default uname ("Player_" +:+ pretty rnd);
                      symbol := O; disconnected := false |} ];
               board := board g; currentPlayer := currentPlayer g;
               status := "in-progress"; winner := winner g |} (games st)),
       [ SocketJoin gameId;
         RoomEmit gameId
           (gameStarted
              (players g ++
                 [ {| id := sid;
                      username := or_default uname ("Player_" +:+ pretty rnd);
                      symbol := O; disconnected := false |} ])
              (board g) (currentPlayer g) gameId);
         SocketEmit (joinSuccess O gameId) ]).
Proof.
  intros H. unfold joinGame. rewrite (games_lookup_record _ _ _ H). done.
Qed.

Lemma makeMove_record sid gameId cellIndex (st : server) g :
  games_get gameId (games st) = Some g ->
  makeMove sid gameId cellIndex st
  = match validateMove sid g cellIndex with
    | inl err => (st, [ SocketEmit (moveError err) ])
    | inr _ =>
        (set_games st (games_set gameId (applyMove g cellIndex) (games st)),
         [ RoomEmit gameId
             (moveMade (board (applyMove g cellIndex))
                (reads_winner st (applyMove g cellIndex))
                (currentPlayer (applyMove g cellIndex)) gameId) ])
    end.
Proof.
  intros H. unfold makeMove. rewrite (games_lookup_record _ _ _ H). done.
Qed.

Lemma requestRematch_record sid gameId (st : server) g :
  games_get gameId (games st) = Some g ->
  requestRematch sid gameId st
  = (set_games st
       (games_set gameId
          {| players := players g; board := emptyBoard; currentPlayer := X;
             status := "in-progress"; winner := Some NoWinner |} (games st)),
     [ RoomEmit gameId (rematchAccepted emptyBoard X gameId);
       Callback AckSuccess ]).
Proof.
  intros H. unfold requestRematch. rewrite (games_lookup_record _ _ _ H). done.
Qed.

Lemma leaveGame_record sid gameId (st : server) g :
  games_get gameId (games st) = Some g ->
  leaveGame sid gameId st
  = match findIndex_player sid (players g) with
    | Some i => ((removePlayer gameId g i st).1,
                 (removePlayer gameId g i st).2 ++ [ SocketLeave gameId ])
    | None => (st, [ SocketLeave gameId ])
    end.
Proof.
  intros H. unfold leaveGame. rewrite (games_lookup_record _ _ _ H). simpl.
  by destruct (findIndex_player sid (players g)).
Qed.

(** ** [makeMove] *)

Lemma validateMove_inr sid g cellIndex p :
  validateMove sid g cellIndex = inr p <->
  board_at (board g) cellIndex = Some None /\
  find_player sid (players g) = Some p /\
  symbol p = currentPlayer g.
Proof.
  unfold validateMove. case_bool_decide as Hc.
  - destruct (find_player sid (players g)) as [q|].
    + case_bool_decide as Hs.
      * split; [intros [= ->]; done | intros (_ & [= ->] & _); done].
      * split; [done | intros (_ & [= ->] & ?); done].
    + split; [done | intros (_ & ? & _); done].
  - split; [done | intros (? & _); done].
Qed.

Lemma applyMove_board g cellIndex :
  board (applyMove g cellIndex)
  = <[Z.to_nat cellIndex := Some (currentPlayer g)]> (board g).
Proof. unfold applyMove. by destruct (truthy _). Qed.

Lemma applyMove_players g cellIndex :
  players (applyMove g cellIndex) = players g.
Proof. unfold applyMove. by destruct (truthy _). Qed.

Lemma applyMove_status g cellIndex :
  status (applyMove g cellIndex) = status g.
Proof. unfold applyMove. by destruct (truthy _). Qed.

Lemma first_record_find sid ps i p :
  first_record sid ps i p ->
  find_player sid ps = Some p /\ findIndex_player sid ps = Some i.
Proof.
  intros (Hi & Hid & Hfirst).
  assert (list_find (fun q => id q = sid) ps = Some (i, p)) as E.
  { apply list_find_Some. split_and!; [done | done |].
    intros j y Hj Hlt. by apply (Hfirst j y). }
  unfold find_player, findIndex_player. by rewrite E.
Qed.

Lemma findIndex_first_record sid ps i :
  findIndex_player sid ps = Some i -> exists p, first_record sid ps i p.
Proof.
  intros H. apply findIndex_player_Some in H as (p & Hi & Hid & Hfirst).
  exists p. split_and!; [done | done |].
  intros j q Hlt Hj. by apply (Hfirst j q).
Qed.

Lemma makeMove_accepted sid gameId cellIndex (st : server) g p :
  games_get gameId (games st) = Some g ->
  validateMove sid g cellIndex = inr p ->
  makeMove sid gameId cellIndex st
  = (set_games st (games_set gameId (applyMove g cellIndex) (games st)),
     [ RoomEmit gameId
         (moveMade (board (applyMove g cellIndex))
            (reads_winner st (applyMove g cellIndex))
            (currentPlayer (applyMove g cellIndex)) gameId) ]).
Proof. intros Hg Hv. rewrite (makeMove_record _ _ _ _ _ Hg). by rewrite Hv. Qed.

Lemma makeMove_rejected sid gameId cellIndex (st : server) g err :
  games_get gameId (games st) = Some g ->
  validateMove sid g cellIndex = inl err ->
  makeMove sid gameId cellIndex st = (st, [ SocketEmit (moveError err) ]).
Proof. intros Hg Hv. rewrite (makeMove_record _ _ _ _ _ Hg). by rewrite Hv. Qed.

(** Reading anything but [null] at the cell of a stored game refuses
    the move. *)
Lemma makeMove_cell_taken sid gameId cellIndex (st : server) g :
  games_get gameId (games st) = Some g ->
  board_at (board g) cellIndex <> Some None ->
  makeMove sid gameId cellIndex st
  = (st, [ SocketEmit (moveError msg_cell_taken) ]).
Proof.
  intros Hg Hc. apply (makeMove_rejected _ _ _ _ g); [done|].
  unfold validateMove. by rewrite bool_decide_eq_false_2.
Qed.

Example self_join_state :
  run self_join init = with_games [ ("game_a", own_opponent) ].
Proof. vm_compute. reflexivity. Qed.

(** C2, as stated, fails.  [joinGame] lets a socket join its own game,
    and [makeMove] reads the symbol of the first record with the
    socket's id.  After [self_join] the socket is a participant with
    symbol ['O'], it is O's turn and cell 1 is empty, yet the move is
    refused and the cell stays empty. *)
Lemma valid_move_refused :
  ~ (forall sid gameId cellIndex st g,
       reachable st -> valid_move sid gameId cellIndex st g ->
       move_applied sid gameId cellIndex st g).
Proof.
  intros H.
  assert (valid_move "s1" "game_a" 1 (with_games [ ("game_a", own_opponent) ])
            own_opponent) as Hv.
  { split; [reflexivity|]. split; [reflexivity|].
    eexists. split; [right; left|]. split; reflexivity. }
  destruct (H "s1" "game_a" 1%Z _ own_opponent
              (ex_intro _ self_join self_join_state) Hv) as (g' & Hg' & Hb).
  vm_compute in Hg'. injection Hg' as <-. vm_compute in Hb. discriminate Hb.
Qed.

Example self_join_move :
  makeMove "s1" "game_a" 1 (with_games [ ("game_a", own_opponent) ])
  = (with_games [ ("game_a", own_opponent) ],
     [ SocketEmit (moveError msg_not_your_turn) ]).
Proof. vm_compute. reflexivity. Qed.

(** C2, amended.  For every session and every move such that the
    session exists, [board[cellIndex]] is [null], and the first player
    record carrying the requester's id (the one [players.find]
    returns) has the symbol of [currentPlayer]: [makeMove] writes that
    symbol into [board[cellIndex]], touches no other cell, keeps
    players and status, and then: on [Win s] sets [winner] to [s] and
    keeps [currentPlayer]; on [Tie] sets [winner] to [Tie] and keeps
    [currentPlayer]; on no outcome keeps [winner] and passes the turn
    to the other symbol, from X to O and from O to X.  The new state is
    stored and broadcast to the room. *)
Theorem makeMove_valid sid gameId cellIndex (st : server) g i p
    (Hgame : games_get gameId (games st) = Some g)
    (Hcell : board_at (board g) cellIndex = Some None)
    (Hplayer : first_record sid (players g) i p)
    (Hturn : symbol p = currentPlayer g) :
  exists g',
    makeMove sid gameId cellIndex st
    = (set_games st (games_set gameId g' (games st)),
       [ RoomEmit gameId
           (moveMade (board g') (reads_winner st g')
              (currentPlayer g') gameId) ]) /\
    games_get gameId (games (makeMove sid gameId cellIndex st).1) = Some g' /\
    board g' = <[Z.to_nat cellIndex := Some (symbol p)]> (board g) /\
    board_at (board g') cellIndex = Some (Some (symbol p)) /\
    (forall j, j <> cellIndex -> board_at (board g') j = board_at (board g) j) /\
    players g' = players g /\
    status g' = status g /\
    match checkWinner (board g') with
    | Win s => winner g' = Some (Win s) /\ currentPlayer g' = currentPlayer g
    | Tie => winner g' = Some Tie /\ currentPlayer g' = currentPlayer g
    | NoWinner =>
        winner g' = winner g /\
        (currentPlayer g = X -> currentPlayer g' = O) /\
        (currentPlayer g = O -> currentPlayer g' = X)
    end.
Proof.
  exists (applyMove g cellIndex).
  apply first_record_find in Hplayer as [Hfind _].
  assert (validateMove sid g cellIndex = inr p) as Hv
    by (apply validateMove_inr; done).
  pose proof (board_at_null_range _ _ Hcell) as Hrange.
  pose proof (makeMove_accepted _ _ _ _ _ _ Hgame Hv) as Heq.
  split_and!.
  - exact Heq.
  - rewrite Heq. simpl. apply games_get_set_eq.
  - rewrite applyMove_board, Hturn. done.
  - rewrite applyMove_board, Hturn. apply board_at_insert_eq. done.
  - intros j Hj. rewrite applyMove_board. apply board_at_insert_ne; [lia|done].
  - apply applyMove_players.
  - apply applyMove_status.
  - rewrite applyMove_board. unfold applyMove.
    destruct (checkWinner (<[Z.to_nat cellIndex:=Some (currentPlayer g)]>
                             (board g))) eqn:E; simpl; try done.
    split; [done|]. by split; intros ->.
Qed.

Lemma makeMove_valid_witness :
  exists g',
    games_get "game_a"
      (games (makeMove "s2" "game_a" 4
                (with_games [ ("game_a", x_opened) ])).1) = Some g' /\
    board g' = [Some X; None; None; None; Some O; None; None; None; None] /\
    currentPlayer g' = X.
Proof.
  assert (first_record "s2" (players x_opened) 1 bob) as Hfirst.
  { split; [reflexivity|]. split; [reflexivity|].
    intros j q Hj Hq. destruct j; [|lia]. injection Hq as <-. discriminate. }
  destruct (makeMove_valid "s2" "game_a" 4
              (with_games [ ("game_a", x_opened) ]) x_opened 1 bob
              eq_refl eq_refl Hfirst eq_refl)
    as (g' & _ & Hget & Hb & _ & _ & _ & _ & Hw).
  exists g'. split; [exact Hget|]. split; [exact Hb|].
  rewrite Hb in Hw. vm_compute in Hw. destruct Hw as (_ & _ & HO).
  apply HO. reflexivity.
Defined.

(** The three checks of [makeMove]: an id under which the lookup finds
    nothing is answered 'Game not found', then a stored game's cell
    that does not read [null] is answered 'Space already taken', then a
    socket that is no player of the game, or whose first record has
    another symbol than [currentPlayer], is answered 'Not your turn'.
    Each answer leaves the state unchanged. *)
Lemma makeMove_errors sid gameId cellIndex (st : server) :
  (is_truthy (games_lookup gameId st) = false ->
   makeMove sid gameId cellIndex st
   = (st, [ SocketEmit (moveError msg_not_found) ])) /\
  (forall g, games_get gameId (games st) = Some g ->
     board_at (board g) cellIndex <> Some None ->
     makeMove sid gameId cellIndex st
     = (st, [ SocketEmit (moveError msg_cell_taken) ])) /\
  (forall g, games_get gameId (games st) = Some g ->
     board_at (board g) cellIndex = Some None ->
     (forall p, p ∈ players g -> id p <> sid) \/
     (exists p, find_player sid (players g) = Some p /\
                symbol p <> currentPlayer g) ->
     makeMove sid gameId cellIndex st
     = (st, [ SocketEmit (moveError msg_not_your_turn) ])).
Proof.
  split_and!.
  - intros H. unfold makeMove. by rewrite H.
  - intros g Hg Hc. by apply (makeMove_cell_taken _ _ _ _ g).
  - intros g Hg Hc Hp. apply (makeMove_rejected _ _ _ _ g); [done|].
    unfold validateMove. rewrite bool_decide_eq_true_2 by done.
    destruct Hp as [Hp | (p & -> & Hs)].
    + apply find_player_None in Hp. by rewrite Hp.
    + by rewrite bool_decide_eq_false_2.
Qed.

(** An inherited object is never changed by [makeMove], whatever it
    answers. *)
Lemma makeMove_no_record sid gameId cellIndex (st : server) :
  games_get gameId (games st) = None ->
  (makeMove sid gameId cellIndex st).1 = st /\
  exists err,
    (makeMove sid gameId cellIndex st).2 = [ SocketEmit (moveError err) ].
Proof.
  intros H. unfold makeMove. rewrite (games_lookup_own_None _ _ H).
  destruct (inherited st gameId) eqn:E; simpl;
    try (split; [done | by eexists]).
  - unfold inherited in E. repeat case_match; discriminate.
  - destruct (protoReset st); simpl; [|split; [done | by eexists]].
    case_bool_decide; simpl; split; try done; by eexists.
  - destruct (_ || _); simpl; [|split; [done | by eexists]].
    case_bool_decide; simpl; split; try done; by eexists.
  - case_bool_decide; simpl; split; try done; by eexists.
  - destruct (negb _); simpl; [split; [done | by eexists]|].
    case_bool_decide; simpl; split; try done; by eexists.
Qed.

(** C3, the failing input.  No game is stored under the id
    ['constructor'], yet [games['constructor']] is the method every
    object inherits: [makeMove] does not answer 'Game not found'.  It
    throws on [game.board[cellIndex]] and the [catch] answers 'Failed
    to make move'.  The state is unchanged.  The same happens for
    ['__proto__'] and for each of the inherited methods. *)
Theorem makeMove_inherited_id sid cellIndex :
  games_get "constructor" (games init) = None /\
  makeMove sid "constructor" cellIndex init
  = (init, [ SocketEmit (moveError msg_move_failed) ]) /\
  msg_move_failed <> msg_not_found /\
  Forall (fun gameId =>
            makeMove sid gameId cellIndex init
            = (init, [ SocketEmit (moveError msg_move_failed) ]))
         ("__proto__" :: inherited_methods).
Proof.
  split; [reflexivity|]. split; [reflexivity|]. split; [discriminate|].
  repeat (apply Forall_cons; split; [reflexivity|]). by apply Forall_nil.
Qed.

(** ** [requestRematch] *)

(** For a stored game [requestRematch] stores a record with an
    all-[null] board of 9 cells, [currentPlayer = 'X'], [winner = null]
    and [status = 'in-progress'] whose player list (ids, names and
    symbols) is the old one, broadcasts the reset and acknowledges
    success; every other game, and everything inherited, is untouched.
    For an id under which the lookup finds nothing it acknowledges
    'Game not found' and the state is unchanged. *)
Lemma requestRematch_spec sid gameId (st : server) :
  (forall g, games_get gameId (games st) = Some g ->
     exists g',
       requestRematch sid gameId st
       = (set_games st (games_set gameId g' (games st)),
          [ RoomEmit gameId (rematchAccepted emptyBoard X gameId);
            Callback AckSuccess ]) /\
       games_get gameId (games (requestRematch sid gameId st).1) = Some g' /\
       board g' = replicate 9 None /\
       currentPlayer g' = X /\
       winner g' = Some NoWinner /\
       status g' = "in-progress" /\
       players g' = players g /\
       (forall k, k <> gameId ->
          games_get k (games (requestRematch sid gameId st).1)
          = games_get k (games st))) /\
  (is_truthy (games_lookup gameId st) = false ->
     requestRematch sid gameId st
     = (st, [ Callback (AckError msg_not_found) ])).
Proof.
  split.
  - intros g Hg. rewrite (requestRematch_record _ _ _ _ Hg).
    eexists. split; [reflexivity|]. simpl.
    split_and!; try reflexivity.
    + apply games_get_set_eq.
    + intros k Hk. by apply games_get_set_ne.
  - intros H. unfold requestRematch. by rewrite H.
Qed.

Example rematch_after_win :
  requestRematch "s2" "game_a" (with_games [ ("game_a", x_won) ])
  = (with_games
       [ ("game_a",
          {| players := [ann; bob]; board := emptyBoard; currentPlayer := X;
             status := "in-progress"; winner := Some NoWinner |}) ],
     [ RoomEmit "game_a" (rematchAccepted emptyBoard X "game_a");
       Callback AckSuccess ]).
Proof. vm_compute. reflexivity. Qed.

Example rematch_unknown_id :
  requestRematch "s2" "game_zz" (with_games [ ("game_a", x_won) ])
  = (with_games [ ("game_a", x_won) ], [ Callback (AckError msg_not_found) ]).
Proof. vm_compute. reflexivity. Qed.

(** C6, the failing input.  No game is stored under the id
    ['__proto__'], yet [games['__proto__']] is [Object.prototype]:
    [requestRematch] does not answer 'Game not found'.  It assigns the
    four fields on [Object.prototype], broadcasts the reset and
    acknowledges success.  The state has changed: [games.board] now
    resolves, and a record that has no [winner] of its own reads
    [null] for it.  For each of the inherited methods the rematch is
    accepted as well and the four fields are written on that
    function. *)
Theorem requestRematch_prototype sid :
  games_get "__proto__" (games init) = None /\
  requestRematch sid "__proto__" init
  = (reset_prototype,
     [ RoomEmit "__proto__" (rematchAccepted emptyBoard X "__proto__");
       Callback AckSuccess ]) /\
  reset_prototype <> init /\
  games_lookup "board" init = VUndefined /\
  games_lookup "board" reset_prototype = VArray /\
  reads_winner init waiting_game = None /\
  reads_winner reset_prototype waiting_game = Some NoWinner /\
  Forall (fun gameId =>
            (requestRematch sid gameId init).2
            = [ RoomEmit gameId (rematchAccepted emptyBoard X gameId);
                Callback AckSuccess ] /\
            (requestRematch sid gameId init).1 <> init)
         ("__proto__" :: inherited_methods).
Proof.
  split; [reflexivity|]. split; [reflexivity|]. split; [discriminate|].
  split; [reflexivity|]. split; [reflexivity|]. split; [reflexivity|].
  split; [reflexivity|].
  repeat (apply Forall_cons; split; [split; [reflexivity | discriminate]|]).
  by apply Forall_nil.
Qed.

(** ** [joinGame] *)

(** [joinGame] answers 'Game not found' when the lookup finds nothing
    and 'Game is full' when the stored game has two players already
    (or more), and in both cases leaves the state unchanged; otherwise
    it appends a player with the socket's id and symbol ['O'] and sets
    the status to 'in-progress', keeping board, turn and winner.  After
    a successful join of a one-player game every further join of that
    game is refused as full. *)
Lemma joinGame_spec sid gameId uname rnd (st : server) :
  (is_truthy (games_lookup gameId st) = false ->
     joinGame sid gameId uname rnd st
     = (st, [ SocketEmit (joinError msg_join_not_found) ])) /\
  (forall g, games_get gameId (games st) = Some g ->
     2 <= length (players g) ->
     joinGame sid gameId uname rnd st
     = (st, [ SocketEmit (joinError msg_join_full) ])) /\
  (forall g, games_get gameId (games st) = Some g ->
     length (players g) < 2 ->
     exists g' name,
       games_get gameId (games (joinGame sid gameId uname rnd st).1)
       = Some g' /\
       players g' = players g ++ [ {| id := sid; username := name;
                                      symbol := O; disconnected := false |} ] /\
       status g' = "in-progress" /\
       board g' = board g /\ currentPlayer g' = currentPlayer g /\
       winner g' = winner g /\
       (forall k, k <> gameId ->
          games_get k (games (joinGame sid gameId uname rnd st).1)
          = games_get k (games st)) /\
       (joinGame sid gameId uname rnd st).2
       = [ SocketJoin gameId;
           RoomEmit gameId
             (gameStarted (players g') (board g') (currentPlayer g') gameId);
           SocketEmit (joinSuccess O gameId) ] /\
       (length (players g) = 1 ->
        forall sid3 uname3 rnd3,
          joinGame sid3 gameId uname3 rnd3
            (joinGame sid gameId uname rnd st).1
          = ((joinGame sid gameId uname rnd st).1,
             [ SocketEmit (joinError msg_join_full) ]))).
Proof.
  split_and!.
  - intros H. unfold joinGame. by rewrite H.
  - intros g Hg Hlen. rewrite (joinGame_record _ _ _ _ _ _ Hg).
    by rewrite bool_decide_eq_true_2.
  - intros g Hg Hlen. rewrite (joinGame_record _ _ _ _ _ _ Hg).
    rewrite bool_decide_eq_false_2 by lia. simpl. eexists _, _.
    split; [apply games_get_set_eq|]. simpl. split_and!; try reflexivity.
    + intros k Hk. by apply games_get_set_ne.
    + intros Hone sid3 uname3 rnd3.
      erewrite joinGame_record; [|simpl; apply games_get_set_eq]. simpl.
      rewrite bool_decide_eq_true_2; [done|].
      rewrite length_app. simpl. lia.
Qed.

Example join_full :
  joinGame "s3" "game_a" None 5 (with_games [ ("game_a", started) ])
  = (with_games [ ("game_a", started) ],
     [ SocketEmit (joinError msg_join_full) ]).
Proof. vm_compute. reflexivity. Qed.

(** C7, the failing input.  No session exists for the id
    ['constructor'], yet [games['constructor']] is truthy: [joinGame]
    does not answer 'Game not found'.  It throws on [.players.length]
    and the [catch] answers 'Failed to join game'.  The state is
    unchanged.  The same happens for ['__proto__'] and for each of the
    inherited methods. *)
Theorem joinGame_inherited_id sid uname rnd :
  games_get "constructor" (games init) = None /\
  joinGame sid "constructor" uname rnd init
  = (init, [ SocketEmit (joinError msg_join_failed) ]) /\
  msg_join_failed <> msg_join_not_found /\
  Forall (fun gameId =>
            joinGame sid gameId uname rnd init
            = (init, [ SocketEmit (joinError msg_join_failed) ]))
         ("__proto__" :: inherited_methods).
Proof.
  split; [reflexivity|]. split; [reflexivity|]. split; [discriminate|].
  repeat (apply Forall_cons; split; [reflexivity|]). by apply Forall_nil.
Qed.

(** ** [leaveGame] and [disconnect] *)

Lemma participant_findIndex sid g :
  participant sid g <-> is_Some (findIndex_player sid (players g)).
Proof.
  split.
  - intros (p & Hp & Hid).
    destruct (findIndex_player sid (players g)) eqn:E; [by eexists|].
    exfalso. eapply findIndex_player_None in E; eauto.
  - intros [i Hi]. apply findIndex_player_Some in Hi as (p & Hp & Hid & _).
    exists p. split; [|done]. apply list_elem_of_lookup. eauto.
Qed.

Lemma removePlayer_removed sid gameId g i (st : server) :
  games_get gameId (games st) = Some g ->
  findIndex_player sid (players g) = Some i ->
  removed_from sid gameId st
    (removePlayer gameId g i st).1 (removePlayer gameId g i st).2.
Proof.
  intros Hg Hi. destruct (findIndex_first_record _ _ _ Hi) as [p Hp].
  exists g, i, p. split; [done|]. split; [done|].
  rewrite <- delete_take_drop. unfold removePlayer.
  destruct (delete i (players g)) as [|q rest]; simpl.
  - split; [intros k Hk; by apply games_get_delete_ne|].
    split_and!; try done. apply games_get_delete_eq.
  - split; [intros k Hk; by apply games_get_set_ne|].
    split_and!; try done. apply games_get_set_eq.
Qed.

(** The scan passes over keys whose game does not hold the socket. *)
Lemma disconnect_scan_skip sid pre rest (st : server) :
  (forall k, k ∈ pre ->
     exists g, games_get k (games st) = Some g /\ ~ participant sid g) ->
  disconnect_scan sid (pre ++ rest) st = disconnect_scan sid rest st.
Proof.
  induction pre as [|k pre IH]; simpl; [done|]. intros H.
  assert (disconnect_scan sid (pre ++ rest) st
          = disconnect_scan sid rest st) as Htl.
  { apply IH. intros k' Hk'. apply H. by right. }
  destruct (H k) as (g & Hg & Hnp); [by left|].
  rewrite (games_lookup_record _ _ _ Hg).
  destruct (findIndex_player sid (players g)) as [i|] eqn:Hi; [|done].
  exfalso. apply Hnp. apply participant_findIndex. by eexists.
Qed.

(** The scan stops at the first game that holds the socket, or changes
    nothing. *)
Lemma disconnect_scan_cases sid keys (st : server) :
  disconnect_scan sid keys st = (st, []) \/
  disconnect_scan sid keys st = (st, [ UncaughtTypeError ]) \/
  exists gameId g i,
    games_get gameId (games st) = Some g /\
    findIndex_player sid (players g) = Some i /\
    disconnect_scan sid keys st = removePlayer gameId g i st.
Proof.
  induction keys as [|k keys IH]; simpl; [by left|].
  unfold games_lookup. destruct (games_get k (games st)) as [g|] eqn:Hg.
  - destruct (findIndex_player sid (players g)) as [i|] eqn:Hi; [|done].
    right. right. by exists k, g, i.
  - destruct (inherited st k) eqn:E; try (right; by left).
    unfold inherited in E. repeat case_match; discriminate.
Qed.

(** Own keys whose games do not hold the socket are all passed. *)
Lemma own_keys_passed sid (st : server) (keys : list string) :
  keys ⊆ map fst (games st) ->
  (forall k g, games_get k (games st) = Some g -> ~ participant sid g) ->
  forall k, k ∈ keys ->
    exists g, games_get k (games st) = Some g /\ ~ participant sid g.
Proof.
  intros Hsub Hno k Hk. destruct (games_get_key k (games st)) as [g Hg].
  - by apply Hsub.
  - exists g. split; [done|]. by eapply Hno.
Qed.

(** When no stored game holds the socket, [disconnect] changes nothing;
    once [Object.prototype] carries the rematch fields it runs into the
    inherited key [board] and throws. *)
Lemma disconnect_stranger sid (st : server) :
  (forall k g, games_get k (games st) = Some g -> ~ participant sid g) ->
  games_get "board" (games st) = None ->
  disconnect sid st
  = (st, if protoReset st then [ UncaughtTypeError ] else []).
Proof.
  intros Hno Hb. unfold disconnect, enumerated.
  rewrite disconnect_scan_skip by (by apply own_keys_passed).
  destruct (protoReset st) eqn:E; [|done].
  simpl. rewrite (games_lookup_own_None _ _ Hb).
  unfold inherited. rewrite E. done.
Qed.

(** ** The own ids of the table *)

Lemma games_get_Some_key k g (games : store) :
  games_get k games = Some g -> k ∈ map fst games.
Proof.
  intros Hg. destruct (decide (k ∈ map fst games)) as [|Hn]; [done|].
  apply games_get_None in Hn. congruence.
Qed.

Lemma removePlayer_keys gameId g i (st : server) :
  games_get gameId (games st) = Some g ->
  map fst (games (removePlayer gameId g i st).1) = map fst (games st) \/
  map fst (games (removePlayer gameId g i st).1)
  = filter (fun k' => k' <> gameId) (map fst (games st)).
Proof.
  intros Hg. apply games_get_Some_key in Hg.
  unfold removePlayer. destruct (delete i (players g)) as [|q rest]; simpl.
  - right. apply games_delete_keys.
  - left. by apply games_set_keys_present.
Qed.

(** What a handler does to a value that is no record leaves the own
    records alone. *)
Lemma reset_inherited_games (st : server) v :
  games (reset_inherited st v) = games st.
Proof. by destruct v. Qed.

(** How each request changes the list of own ids. *)
Lemma handle_keys sid r (st : server) :
  match r with
  | CreateGame _ tok _ =>
      map fst (games (handle sid r st).1)
      = if bool_decide ("game_" +:+ tok ∈ map fst (games st))
        then map fst (games st)
        else map fst (games st) ++ [ "game_" +:+ tok ]
  | JoinGame _ _ _ | MakeMove _ _ | RequestRematch _ =>
      map fst (games (handle sid r st).1) = map fst (games st)
  | Disconnect | LeaveGame _ =>
      map fst (games (handle sid r st).1) = map fst (games st) \/
      exists k, map fst (games (handle sid r st).1)
                = filter (fun k' => k' <> k) (map fst (games st))
  end.
Proof.
  destruct r as [u tok rnd | gameId u rnd | gameId cellIndex
                | gameId | | gameId]; simpl.
  - case_bool_decide as Hin.
    + by apply games_set_keys_present.
    + rewrite games_set_keys_fresh, map_app by done. done.
  - destruct (games_get gameId (games st)) as [g|] eqn:Hg.
    + rewrite (joinGame_record _ _ _ _ _ _ Hg). case_bool_decide; [done|].
      simpl. apply games_set_keys_present. by eapply games_get_Some_key.
    + unfold joinGame. rewrite (games_lookup_own_None _ _ Hg).
      destruct (inherited st gameId) eqn:E; simpl; try done.
      * by apply inherited_not_record in E.
      * by case_bool_decide.
  - destruct (games_get gameId (games st)) as [g|] eqn:Hg.
    + rewrite (makeMove_record _ _ _ _ _ Hg).
      destruct (validateMove sid g cellIndex); [done|]. simpl.
      apply games_set_keys_present. by eapply games_get_Some_key.
    + by rewrite (proj1 (makeMove_no_record sid gameId cellIndex st Hg)).
  - destruct (games_get gameId (games st)) as [g|] eqn:Hg.
    + rewrite (requestRematch_record _ _ _ _ Hg). simpl.
      apply games_set_keys_present. by eapply games_get_Some_key.
    + unfold requestRematch. rewrite (games_lookup_own_None _ _ Hg).
      destruct (is_truthy (inherited st gameId)); simpl; [|done].
      destruct (inherited st gameId) eqn:E; simpl; try done.
      unfold inherited in E. repeat case_match; discriminate.
  - unfold disconnect.
    destruct (disconnect_scan_cases sid (enumerated st) st)
      as [-> | [-> | (gameId & g & i & Hg & Hi & ->)]];
      [by left | by left |].
    destruct (removePlayer_keys gameId g i st Hg) as [H|H];
      [by left | right; by exists gameId].
  - destruct (games_get gameId (games st)) as [g|] eqn:Hg.
    + rewrite (leaveGame_record _ _ _ _ Hg).
      destruct (findIndex_player sid (players g)) as [i|] eqn:Hi; [|by left].
      simpl. destruct (removePlayer_keys gameId g i st Hg) as [H|H];
        [by left | right; by exists gameId].
    + left. unfold leaveGame. rewrite (games_lookup_own_None _ _ Hg).
      destruct (is_truthy (inherited st gameId)); simpl; [|done].
      destruct (inherited st gameId) eqn:E; try done.
      by apply inherited_not_record in E.
Qed.

Lemma handle_keys_origin sid r (st : server) k :
  k ∈ map fst (games (handle sid r st).1) ->
  k ∈ map fst (games st) \/ exists tok, k = "game_" +:+ tok.
Proof.
  pose proof (handle_keys sid r st) as H.
  destruct r as [u tok rnd | gameId u rnd | gameId cellIndex
                | gameId | | gameId]; intros Hk.
  - rewrite H in Hk. case_bool_decide; [by left|].
    apply elem_of_app in Hk as [Hk|Hk]; [by left|].
    apply list_elem_of_singleton in Hk. right. by exists tok.
  - rewrite H in Hk. by left.
  - rewrite H in Hk. by left.
  - rewrite H in Hk. by left.
  - destruct H as [H | [k0 H]]; rewrite H in Hk; [by left|].
    apply list_elem_of_filter in Hk as [_ Hk]. by left.
  - destruct H as [H | [k0 H]]; rewrite H in Hk; [by left|].
    apply list_elem_of_filter in Hk as [_ Hk]. by left.
Qed.

(** The own ids of a reachable state were all made by [createGame]. *)
Lemma reachable_created (st : server) k :
  reachable st -> k ∈ map fst (games st) -> exists tok, k = "game_" +:+ tok.
Proof.
  intros [evs <-].
  assert (forall s,
            (forall k', k' ∈ map fst (games s) ->
                        exists tok, k' = "game_" +:+ tok) ->
            forall k', k' ∈ map fst (games (run evs s)) ->
                       exists tok, k' = "game_" +:+ tok) as Hrun.
  { induction evs as [|[sid r] evs IH]; intros s Hs; [done|].
    simpl. apply IH. intros k' Hk'.
    apply handle_keys_origin in Hk' as [Hk'|Hk']; [by apply Hs | done]. }
  apply (Hrun init). intros k' Hk'. inversion Hk'.
Qed.

(** In a reachable state no record is stored under the name ['board'],
    the first inherited key the loop of [disconnect] can visit. *)
Lemma reachable_no_reset_key (st : server) :
  reachable st -> games_get "board" (games st) = None.
Proof.
  intros Hr. destruct (games_get "board" (games st)) as [g|] eqn:E; [|done].
  apply games_get_Some_key in E.
  destruct (reachable_created _ _ Hr E) as [tok Ht]. discriminate Ht.
Qed.

(** A socket that is a player of some game has a first game in
    enumeration order. *)
Lemma first_game_exists sid (st : server) gameId g :
  games_get gameId (games st) = Some g -> participant sid g ->
  exists gameId', first_game_of sid gameId' st.
Proof.
  intros Hg Hp.
  assert (forall keys,
            keys ⊆ map fst (games st) ->
            gameId ∈ keys ->
            exists pre k post g0,
              keys = pre ++ k :: post /\
              (forall k' g', k' ∈ pre -> games_get k' (games st) = Some g' ->
                             ~ participant sid g') /\
              games_get k (games st) = Some g0 /\ participant sid g0) as H.
  { induction keys as [|k keys IH]; intros Hsub Hin; [by inversion Hin|].
    destruct (games_get_key k (games st)) as [g0 Hg0];
      [apply Hsub; left|].
    destruct (findIndex_player sid (players g0)) as [i|] eqn:Hi.
    - exists [], k, keys, g0. split; [done|]. split.
      + intros k' g' Hk'. inversion Hk'.
      + split; [done|]. apply participant_findIndex. by eexists.
    - assert (~ participant sid g0) as Hno.
      { intros Hq. apply participant_findIndex in Hq as [j Hj]. congruence. }
      destruct IH as (pre & k1 & post & g1 & -> & Hpre & Hg1 & Hp1).
      + intros x Hx. apply Hsub. by right.
      + apply elem_of_cons in Hin as [-> | Hin]; [|done].
        exfalso. apply Hno. congruence.
      + exists (k :: pre), k1, post, g1. split; [done|]. split; [|done].
        intros k' g' Hk' Hg'. apply elem_of_cons in Hk' as [-> | Hk'].
        * congruence.
        * by eapply Hpre. }
  destruct (H (map fst (games st))) as (pre & k & post & g0 & Hk & Hpre & Hg0 & Hp0).
  - done.
  - by eapply games_get_Some_key.
  - exists k, pre, post, g0. done.
Qed.

(** C8.  In a reachable state, a [leaveGame] by a player of the game,
    and a [disconnect] of a socket whose first game in enumeration
    order is [gameId], take the first record with the socket's id out
    of that game: when a player remains, the first remaining player is
    sent [playerLeft]; when none remains, the record is deleted and
    looking the id up afterwards finds nothing (join, move and rematch
    answer not found).  Every socket that is a player of some game has
    such a first game, and [disconnect] changes at most one game, the
    first match. *)
Theorem leave_disconnect_spec sid (st : server) (Hreach : reachable st) :
  (forall gameId g,
     games_get gameId (games st) = Some g -> participant sid g ->
     exists acts,
       (leaveGame sid gameId st).2 = acts ++ [ SocketLeave gameId ] /\
       removed_from sid gameId st (leaveGame sid gameId st).1 acts /\
       (games_get gameId (games (leaveGame sid gameId st).1) = None ->
        not_found gameId (leaveGame sid gameId st).1)) /\
  (forall gameId,
     first_game_of sid gameId st ->
     removed_from sid gameId st (disconnect sid st).1 (disconnect sid st).2 /\
     (games_get gameId (games (disconnect sid st).1) = None ->
      not_found gameId (disconnect sid st).1)) /\
  (forall gameId g,
     games_get gameId (games st) = Some g -> participant sid g ->
     exists gameId', first_game_of sid gameId' st) /\
  (exists gameId, forall k,
     k <> gameId ->
     games_get k (games (disconnect sid st).1) = games_get k (games st)).
Proof.
  assert (forall gameId g s',
            games_get gameId (games st) = Some g ->
            games_get gameId (games s') = None -> not_found gameId s') as Hnf.
  { intros gameId g s' Hg Hnone. apply games_get_Some_key in Hg.
    destruct (reachable_created _ _ Hreach Hg) as [tok ->].
    apply not_found_falsy. by rewrite games_lookup_created_None. }
  split_and!.
  - intros gameId g Hg Hp. apply participant_findIndex in Hp as [i Hi].
    rewrite (leaveGame_record _ _ _ _ Hg), Hi. simpl.
    eexists. split; [reflexivity|]. split; [by apply removePlayer_removed|].
    by apply (Hnf gameId g).
  - intros gameId (pre & post & g & Hkeys & Hpre & Hg & Hp).
    apply participant_findIndex in Hp as [i Hi].
    assert (disconnect sid st = removePlayer gameId g i st) as ->.
    { unfold disconnect, enumerated. rewrite Hkeys, <- !app_assoc.
      rewrite disconnect_scan_skip.
      - simpl. by rewrite (games_lookup_record _ _ _ Hg), Hi.
      - intros k Hk. destruct (games_get_key k (games st)) as [g0 Hg0].
        + rewrite Hkeys. apply elem_of_app. by left.
        + exists g0. split; [done|]. by eapply Hpre. }
    split; [by apply removePlayer_removed|]. by apply (Hnf gameId g).
  - apply first_game_exists.
  - unfold disconnect.
    destruct (disconnect_scan_cases sid (enumerated st) st)
      as [-> | [-> | (gameId & g & i & Hg & Hi & ->)]].
    + by exists "".
    + by exists "".
    + exists gameId.
      destruct (removePlayer_removed _ _ _ _ _ Hg Hi)
        as (? & ? & ? & _ & _ & H & _).
      exact H.
Qed.

Lemma leave_disconnect_spec_witness :
  reachable (run opening init) /\
  first_game_of "s2" "game_a" (run opening init) /\
  removed_from "s2" "game_a" (run opening init)
    (disconnect "s2" (run opening init)).1
    (disconnect "s2" (run opening init)).2.
Proof.
  assert (reachable (run opening init)) as Hr by (exists opening; reflexivity).
  assert (first_game_of "s2" "game_a" (run opening init)) as Hf.
  { exists [], [], started. split; [vm_compute; reflexivity|].
    split; [intros k g0 Hk; inversion Hk|].
    split; [vm_compute; reflexivity|].
    exists bob. split; [right; left | reflexivity]. }
  split; [exact Hr|]. split; [exact Hf|].
  exact (proj1 (proj1 (proj2 (leave_disconnect_spec "s2" (run opening init) Hr))
                  "game_a" Hf)).
Defined.

(** A socket that sits in two games is taken out of the first only. *)
Example disconnect_first_match :
  disconnect "s1"
    (run [("s1", CreateGame (Some "ann") "a" 0);
          ("s2", JoinGame "game_a" (Some "bob") 0);
          ("s1", CreateGame (Some "ann") "b" 0)] init)
  = (with_games
       [ ("game_a",
          {| players := [bob];
             board := emptyBoard; currentPlayer := X;
             status := "in-progress"; winner := None |});
         ("game_b", waiting_game) ],
     [ RoomEmit "s2" playerLeft ]).
Proof. vm_compute. reflexivity. Qed.

(** After a rematch for [__proto__], the [disconnect] of a socket that
    is in no game throws. *)
Example disconnect_after_proto_rematch :
  disconnect "s9" (run proto_rematch init)
  = (reset_prototype, [ UncaughtTypeError ]).
Proof. vm_compute. reflexivity. Qed.

(** ** The invariant holds in every reachable state *)

Lemma store_ok_get (games : store) k g :
  store_ok games -> games_get k games = Some g -> game_ok g.
Proof.
  intros [_ HF] Hg. apply games_get_elem_of in Hg.
  rewrite Forall_forall in HF. exact (HF _ Hg).
Qed.

Lemma store_ok_set (games : store) k g :
  store_ok games -> game_ok g -> store_ok (games_set k g games).
Proof.
  intros [Hnd HF] Hg. split; [by apply games_set_NoDup|].
  by apply Forall_games_set.
Qed.

Lemma store_ok_delete (games : store) k :
  store_ok games -> store_ok (games_delete k games).
Proof.
  intros [Hnd HF]. split; [by apply games_delete_NoDup|].
  by apply Forall_games_delete.
Qed.

(** A tied board has no [null] cell, at any index. *)
Lemma checkWinner_Tie_full board i :
  checkWinner board = Tie -> board_at board i <> Some None.
Proof.
  intros HT Hi. apply checkWinner_Tie in HT as [Hfull _].
  apply Hfull. eapply board_at_elem_of. exact Hi.
Qed.

(** A write to a cell that read [null] keeps the uniform lines. *)
Lemma uniform_insert_keep (board : list cell) i v p s :
  board_at board i = Some None -> uniform board p s ->
  uniform (<[Z.to_nat i := v]> board) p s.
Proof.
  intros Hi (H1 & H2 & H3). unfold board_at in Hi.
  destruct (0 <=? i)%Z; [|done].
  unfold uniform.
  rewrite !list_lookup_insert_ne; [done|congruence..].
Qed.

(** A line that is uniform after a write was uniform before, or holds
    the symbol written. *)
Lemma uniform_insert_inv (board : list cell) n t p s :
  uniform (<[n := Some t]> board) p s -> s = t \/ uniform board p s.
Proof.
  unfold uniform. rewrite !list_lookup_insert.
  repeat case_decide; intros (Ha & Hb & Hc);
    try (left; congruence); by right.
Qed.

Lemma has_line_insert (board : list cell) i v :
  board_at board i = Some None -> has_line board ->
  has_line (<[Z.to_nat i := v]> board).
Proof.
  intros Hi (p & s & Hp & Hu). exists p, s. split; [done|].
  by apply uniform_insert_keep.
Qed.

Lemma checkWinner_Win_line board s :
  checkWinner board = Win s -> exists p, p ∈ lines /\ uniform board p s.
Proof.
  intros H. apply checkWinner_Win in H as (p & pre & post & E & Hu & _).
  exists p. split; [|done]. rewrite E. apply elem_of_app. right. by left.
Qed.

(** While an empty cell is left and the winner is decided, it is a
    symbol and a line is uniform. *)
Lemma play_ok_decided_line g i w :
  play_ok g -> board_at (board g) i = Some None ->
  winner g = Some w -> truthy w = true -> has_line (board g).
Proof.
  intros [Hw _] Hi E Ht. specialize (Hw w E Ht). destruct w; [done| |].
  - apply checkWinner_Win_line in Hw as (p & Hp & Hu). by exists p, s.
  - exfalso. exact (checkWinner_Tie_full _ _ Hw Hi).
Qed.

Lemma applyMove_play_ok g cellIndex :
  play_ok g -> board_at (board g) cellIndex = Some None ->
  play_ok (applyMove g cellIndex).
Proof.
  intros Hok Hcell. pose proof Hok as [Hw Hl]. unfold applyMove.
  destruct (checkWinner (<[Z.to_nat cellIndex:=Some (currentPlayer g)]>
                           (board g))) as [|s|] eqn:E; simpl.
  - apply checkWinner_NoWinner in E as [_ Hno]. split; simpl.
    + intros w Ew Ht. exfalso. apply Hno.
      apply has_line_insert; [done|]. eapply play_ok_decided_line; eauto.
    + intros p s Hp Hu. exfalso. apply Hno. by exists p, s.
  - split; simpl.
    + by intros w [= <-] _.
    + intros p s' Hp Hu. apply uniform_insert_inv in Hu as [->|Hu]; [done|].
      by apply (Hl p).
  - split; simpl.
    + by intros w [= <-] _.
    + intros p s' Hp Hu. apply checkWinner_Tie in E as [_ Hno].
      exfalso. apply Hno. by exists p, s'.
Qed.

Lemma emptyBoard_play_ok ps st wo :
  (forall w, wo = Some w -> truthy w = false) ->
  play_ok {| players := ps; board := emptyBoard; currentPlayer := X;
             status := st; winner := wo |}.
Proof.
  intros Hf. split; simpl.
  - intros w E Ht. specialize (Hf w E). congruence.
  - intros p s _ (H1 & _). unfold emptyBoard in H1.
    apply lookup_replicate in H1 as [? _]. done.
Qed.

Lemma applyMove_ok sid g cellIndex p :
  game_ok g -> validateMove sid g cellIndex = inr p ->
  game_ok (applyMove g cellIndex).
Proof.
  intros (Hb & Hp & Hs & Hw & Ht) Hv.
  apply validateMove_inr in Hv as (Hcell & _ & _).
  unfold game_ok.
  rewrite applyMove_players, applyMove_status, applyMove_board, length_insert.
  split_and!; try done; try lia.
  by apply applyMove_play_ok.
Qed.


(** A request that names an id without own record leaves the own
    records as they are, whatever it finds inherited. *)
Lemma handle_no_record sid r gameId (st : server) :
  addresses r gameId -> games_get gameId (games st) = None ->
  games (handle sid r st).1 = games st.
Proof.
  intros Ha Hg.
  destruct r as [u tok rnd | gid u rnd | gid cellIndex | gid | | gid];
    simpl in Ha; try done; subst gid; simpl.
  - unfold joinGame. rewrite (games_lookup_own_None _ _ Hg).
    destruct (inherited st gameId) eqn:E; simpl; try done.
    + by apply inherited_not_record in E.
    + by case_bool_decide.
  - by rewrite (proj1 (makeMove_no_record sid gameId cellIndex st Hg)).
  - unfold requestRematch. rewrite (games_lookup_own_None _ _ Hg).
    destruct (is_truthy (inherited st gameId)); simpl; [|done].
    destruct (inherited st gameId) eqn:E; simpl; try done.
    by apply inherited_not_record in E.
  - unfold leaveGame. rewrite (games_lookup_own_None _ _ Hg).
    destruct (is_truthy (inherited st gameId)); simpl; [|done].
    destruct (inherited st gameId) eqn:E; try done.
    by apply inherited_not_record in E.
Qed.

Lemma length_delete_le {A} (l : list A) i : length (delete i l) <= length l.
Proof.
  rewrite delete_take_drop, length_app, length_take, length_drop. lia.
Qed.

(** A property of game records that every handler establishes or
    keeps holds of every game of every reachable state. *)
Section GameInvariant.
Variable P : game -> Prop.

Hypothesis P_create : forall sid name,
  P {| players := [ {| id := sid; username := name; symbol := X;
                       disconnected := false |} ];
       board := emptyBoard; currentPlayer := X;
       status := "waiting"; winner := None |}.

Hypothesis P_join : forall g sid name,
  P g -> length (players g) < 2 ->
  P {| players := players g ++ [ {| id := sid; username := name;
                                    symbol := O; disconnected := false |} ];
       board := board g; currentPlayer := currentPlayer g;
       status := "in-progress"; winner := winner g |}.

Hypothesis P_move : forall sid g cellIndex p,
  P g -> validateMove sid g cellIndex = inr p -> P (applyMove g cellIndex).

Hypothesis P_rematch : forall g,
  P g ->
  P {| players := players g; board := emptyBoard; currentPlayer := X;
       status := "in-progress"; winner := Some NoWinner |}.

Hypothesis P_remove : forall g i q rest,
  P g -> delete i (players g) = q :: rest ->
  P {| players := q :: rest; board := board g;
       currentPlayer := currentPlayer g;
       status := status g; winner := winner g |}.

Lemma Forall_get (games : store) k g :
  Forall (fun kg => P kg.2) games -> games_get k games = Some g -> P g.
Proof.
  intros HF Hg. apply games_get_elem_of in Hg.
  rewrite Forall_forall in HF. exact (HF _ Hg).
Qed.

Lemma removePlayer_Forall gameId g i (st : server) :
  Forall (fun kg => P kg.2) (games st) -> P g ->
  Forall (fun kg => P kg.2) (games (removePlayer gameId g i st).1).
Proof.
  intros HF Hg. unfold removePlayer.
  destruct (delete i (players g)) as [|q rest] eqn:E; simpl.
  - by apply Forall_games_delete.
  - apply Forall_games_set; [|done]. intros ?. simpl. by apply (P_remove g i).
Qed.

Lemma handle_Forall sid r (st : server) :
  Forall (fun kg => P kg.2) (games st) ->
  Forall (fun kg => P kg.2) (games (handle sid r st).1).
Proof.
  intros HF.
  destruct r as [u tok rnd | gameId u rnd | gameId cellIndex
                | gameId | | gameId].
  - simpl. apply Forall_games_set; [|done]. intros ?. apply P_create.
  - destruct (games_get gameId (games st)) as [g|] eqn:Hg;
      [|by rewrite (handle_no_record _ _ gameId)].
    simpl. rewrite (joinGame_record _ _ _ _ _ _ Hg).
    case_bool_decide as Hfull; [done|]. simpl.
    apply Forall_games_set; [|done]. intros ?. simpl.
    apply P_join; [by eapply Forall_get | lia].
  - destruct (games_get gameId (games st)) as [g|] eqn:Hg;
      [|by rewrite (handle_no_record _ _ gameId)].
    simpl. rewrite (makeMove_record _ _ _ _ _ Hg).
    destruct (validateMove sid g cellIndex) as [err|p] eqn:Hv; [done|].
    simpl. apply Forall_games_set; [|done]. intros ?. simpl.
    eapply P_move; [by eapply Forall_get | exact Hv].
  - destruct (games_get gameId (games st)) as [g|] eqn:Hg;
      [|by rewrite (handle_no_record _ _ gameId)].
    simpl. rewrite (requestRematch_record _ _ _ _ Hg). simpl.
    apply Forall_games_set; [|done]. intros ?. simpl.
    apply P_rematch. by eapply Forall_get.
  - simpl. unfold disconnect.
    destruct (disconnect_scan_cases sid (enumerated st) st)
      as [-> | [-> | (gameId & g & i & Hg & Hi & ->)]]; [done | done |].
    apply removePlayer_Forall; [done | by eapply Forall_get].
  - destruct (games_get gameId (games st)) as [g|] eqn:Hg;
      [|by rewrite (handle_no_record _ _ gameId)].
    simpl. rewrite (leaveGame_record _ _ _ _ Hg).
    destruct (findIndex_player sid (players g)) as [i|] eqn:Hi; [|done].
    simpl. apply removePlayer_Forall; [done | by eapply Forall_get].
Qed.

Lemma reachable_Forall (st : server) :
  reachable st -> Forall (fun kg => P kg.2) (games st).
Proof.
  intros [evs <-].
  assert (forall s, Forall (fun kg => P kg.2) (games s) ->
                    Forall (fun kg => P kg.2) (games (run evs s))) as Hrun.
  { induction evs as [|[sid r] evs IH]; intros s Hs; [done|].
    simpl. apply IH. by apply handle_Forall. }
  apply Hrun. constructor.
Qed.

Lemma reachable_all_P (st : server) k g :
  reachable st -> games_get k (games st) = Some g -> P g.
Proof. intros Hr. apply Forall_get. by apply reachable_Forall. Qed.
End GameInvariant.

Lemma handle_NoDup sid r (st : server) :
  NoDup (map fst (games st)) -> NoDup (map fst (games (handle sid r st).1)).
Proof.
  intros Hnd. pose proof (handle_keys sid r st) as H.
  destruct r as [u tok rnd | gameId u rnd | gameId cellIndex
                | gameId | | gameId]; try (by rewrite H).
  - rewrite H. case_bool_decide as Hin; [done|].
    apply NoDup_app. split_and!; [done| |apply NoDup_singleton].
    intros x Hx Hx'. apply list_elem_of_singleton in Hx'. by subst.
  - destruct H as [H | [k H]]; rewrite H; [done | by apply NoDup_filter].
  - destruct H as [H | [k H]]; rewrite H; [done | by apply NoDup_filter].
Qed.

Lemma reachable_NoDup (st : server) :
  reachable st -> NoDup (map fst (games st)).
Proof.
  intros [evs <-].
  assert (forall s, NoDup (map fst (games s)) ->
                    NoDup (map fst (games (run evs s)))) as Hrun.
  { induction evs as [|[sid r] evs IH]; intros s Hs; [done|].
    simpl. apply IH. by apply handle_NoDup. }
  apply Hrun. constructor.
Qed.

Lemma game_ok_remove g i q rest :
  game_ok g -> delete i (players g) = q :: rest ->
  game_ok {| players := q :: rest; board := board g;
             currentPlayer := currentPlayer g;
             status := status g; winner := winner g |}.
Proof.
  intros (Hb & Hp & Hs & Hw & Ht) Hdel.
  pose proof (length_delete_le (players g) i) as Hle.
  rewrite Hdel in Hle. simpl in Hle.
  unfold game_ok. simpl. split_and!; try done; try lia.
  intros Hwait. specialize (Hw Hwait). lia.
Qed.

Lemma reachable_ok (st : server) : reachable st -> store_ok (games st).
Proof.
  intros Hr. split; [by apply reachable_NoDup|].
  apply (reachable_Forall game_ok); [| | | | |done].
  - intros sid name. unfold game_ok. simpl.
    split_and!; try done; try lia; try (by left).
    by apply emptyBoard_play_ok.
  - intros g sid name (Hb & Hp & Hs & Hw & Ht) Hlt. unfold game_ok. simpl.
    rewrite length_app. simpl. split_and!; try done; try lia; by right.
  - intros sid g cellIndex p. apply applyMove_ok.
  - intros g (Hb & Hp & Hs & Hw & Ht). unfold game_ok. simpl.
    split_and!; try done; try lia; try (by right).
    apply emptyBoard_play_ok. by intros w [= <-].
  - apply game_ok_remove.
Qed.

(** ** Sample runs *)

Example x_wins_state : run x_wins init = with_games [ ("game_a", x_won) ].
Proof. vm_compute. reflexivity. Qed.

Example tie_game_state : run tie_game init = with_games [ ("game_a", tied) ].
Proof. vm_compute. reflexivity. Qed.

Lemma x_won_decided : decided x_won.
Proof. exists (Win X). split; [reflexivity | discriminate]. Qed.

(** ** Status *)

(** C4, as stated, fails: after X completes the top row the game has a
    winner and its status is still 'in-progress'. *)
Lemma status_tracks_state_fails :
  ~ (forall st, reachable st ->
       forall k g, games_get k (games st) = Some g -> status_tracks_state g).
Proof.
  intros H.
  destruct (H (with_games [ ("game_a", x_won) ])
              (ex_intro _ x_wins x_wins_state)
              "game_a" x_won eq_refl) as [[_ Hfin] _].
  specialize (Hfin x_won_decided). simpl in Hfin. discriminate Hfin.
Qed.

(** The other direction of the second equivalence fails too: a game
    whose second player left keeps the status 'in-progress'. *)
Example in_progress_with_one_player :
  run (opening ++ [("s2", LeaveGame "game_a")]) init
  = with_games
      [ ("game_a",
         {| players := [ann]; board := emptyBoard; currentPlayer := X;
            status := "in-progress"; winner := None |}) ].
Proof. vm_compute. reflexivity. Qed.

(** C4, amended.  In every reachable state no game has status
    'finished': the status is 'waiting' or 'in-progress' whatever the
    winner is (so 'finished implies a winner' holds only vacuously), and
    a game with status 'waiting' has fewer than 2 players, in fact
    exactly one. *)
Theorem status_reachable (st : server) k g
    (Hreach : reachable st) (Hg : games_get k (games st) = Some g) :
  status g <> "finished" /\
  (status g = "waiting" \/ status g = "in-progress") /\
  (status g = "finished" -> decided g) /\
  (status g = "waiting" -> length (players g) < 2) /\
  (status g = "waiting" -> length (players g) = 1).
Proof.
  apply reachable_ok in Hreach.
  destruct (store_ok_get _ _ _ Hreach Hg) as (Hb & Hp & Hs & Hw & Ht).
  assert (status g <> "finished") as Hnf
    by (intros E; rewrite E in Hs; destruct Hs; discriminate).
  split_and!; try done.
  intros Hwait. rewrite (Hw Hwait). lia.
Qed.

Lemma status_reachable_witness :
  reachable (run x_wins init) /\
  games_get "game_a" (games (run x_wins init)) = Some x_won /\
  winner x_won = Some (Win X) /\ status x_won <> "finished".
Proof.
  assert (reachable (run x_wins init)) as Hr by (exists x_wins; reflexivity).
  assert (games_get "game_a" (games (run x_wins init)) = Some x_won) as Hg
    by (vm_compute; reflexivity).
  split; [exact Hr|]. split; [exact Hg|]. split; [reflexivity|].
  exact (proj1 (status_reachable (run x_wins init) "game_a" x_won Hr Hg)).
Defined.

(** ** Moves after the game is decided *)

(** C5, as stated, fails: [makeMove] never reads [winner].  After X has
    won with the top row, X's socket marks cell 5 and the move is
    stored and broadcast. *)
Lemma moves_after_win_accepted :
  ~ (forall st, reachable st ->
       forall k g, games_get k (games st) = Some g -> decided g ->
                   moves_refused k st).
Proof.
  intros H.
  destruct (H (with_games [ ("game_a", x_won) ])
              (ex_intro _ x_wins x_wins_state)
              "game_a" x_won eq_refl x_won_decided "s1" 5%Z) as [Hsame _].
  vm_compute in Hsame. discriminate Hsame.
Qed.

Example move_after_win :
  makeMove "s1" "game_a" 5 (with_games [ ("game_a", x_won) ])
  = (with_games
       [ ("game_a",
          {| players := [ann; bob];
             board := [Some X; Some X; Some X; Some O; Some O;
                       Some X; None; None; None];
             currentPlayer := X;
             status := "in-progress";
             winner := Some (Win X) |}) ],
     [ RoomEmit "game_a"
         (moveMade [Some X; Some X; Some X; Some O; Some O;
                    Some X; None; None; None]
                   (Some (Win X)) X "game_a") ]).
Proof. vm_compute. reflexivity. Qed.

(** In a reachable state the symbol of a won game is the one to move. *)
Lemma winner_is_currentPlayer (st : server) k g s :
  reachable st -> games_get k (games st) = Some g ->
  winner g = Some (Win s) -> currentPlayer g = s.
Proof.
  intros Hr Hg Hw. apply reachable_ok in Hr.
  destruct (store_ok_get _ _ _ Hr Hg) as (_ & _ & _ & _ & Hwin & Hl).
  specialize (Hwin _ Hw eq_refl).
  apply checkWinner_Win_line in Hwin as (p & Hp & Hu).
  symmetry. by apply (Hl p).
Qed.

(** C5, amended.  In every reachable state: a game whose winner is
    'Tie' accepts no move, every [makeMove] on it fails (with 'Space
    already taken') and leaves the state unchanged; in a game won by
    symbol [s], [currentPlayer] is [s] and every [makeMove] fails and
    leaves the state unchanged, except a request for a cell that reads
    [null] by a socket whose player record has symbol [s].  [makeMove]
    reads neither [winner] nor [status], so nothing is said of that
    last request. *)
Theorem moves_after_decision (st : server) k g
    (Hreach : reachable st) (Hg : games_get k (games st) = Some g) :
  (winner g = Some Tie ->
     moves_refused k st /\
     forall sid cellIndex,
       makeMove sid k cellIndex st
       = (st, [ SocketEmit (moveError msg_cell_taken) ])) /\
  (forall s, winner g = Some (Win s) ->
     currentPlayer g = s /\
     forall sid cellIndex,
       (board_at (board g) cellIndex = Some None /\
        exists p, find_player sid (players g) = Some p /\ symbol p = s) \/
       move_refused sid k cellIndex st).
Proof.
  split.
  - intros Htie. apply reachable_ok in Hreach.
    destruct (store_ok_get _ _ _ Hreach Hg) as (_ & _ & _ & _ & Hwin & _).
    assert (forall sid cellIndex,
              makeMove sid k cellIndex st
              = (st, [ SocketEmit (moveError msg_cell_taken) ])) as Hall.
    { intros sid cellIndex. apply (makeMove_cell_taken _ _ _ _ g Hg).
      apply checkWinner_Tie_full. by apply Hwin. }
    split; [|exact Hall].
    intros sid cellIndex. unfold move_refused. rewrite Hall. simpl.
    split; [done | by eexists].
  - intros s Hw.
    pose proof (winner_is_currentPlayer _ _ _ _ Hreach Hg Hw) as Hcp.
    split; [exact Hcp|]. intros sid cellIndex.
    destruct (validateMove sid g cellIndex) as [err|p] eqn:Hv.
    + right. unfold move_refused.
      rewrite (makeMove_rejected _ _ _ _ _ _ Hg Hv). simpl.
      split; [done | by eexists].
    + left. apply validateMove_inr in Hv as (Hc & Hp & Hs).
      split; [done|]. exists p. split; [done | congruence].
Qed.

Lemma moves_after_decision_witness :
  reachable (run tie_game init) /\
  games_get "game_a" (games (run tie_game init)) = Some tied /\
  winner tied = Some Tie /\
  moves_refused "game_a" (run tie_game init).
Proof.
  assert (reachable (run tie_game init)) as Hr
    by (exists tie_game; reflexivity).
  assert (games_get "game_a" (games (run tie_game init)) = Some tied) as Hg
    by (vm_compute; reflexivity).
  split; [exact Hr|]. split; [exact Hg|]. split; [reflexivity|].
  exact (proj1 (proj1 (moves_after_decision (run tie_game init) "game_a" tied
                         Hr Hg) eq_refl)).
Defined.

(** After X has won, O's socket is refused. *)
Example loser_refused :
  makeMove "s2" "game_a" 5 (with_games [ ("game_a", x_won) ])
  = (with_games [ ("game_a", x_won) ],
     [ SocketEmit (moveError msg_not_your_turn) ]).
Proof. vm_compute. reflexivity. Qed.

(** ** [createGame] and the ids of the table *)

(** C9, as stated, fails: [createGame] assigns [games[gameId]] without
    looking the id up.  When the drawn token repeats the token of a
    live game, that game's record is replaced by the new one. *)
Lemma createGame_displaces :
  ~ (forall sid uname tok rnd st, reachable st ->
       none_displaced (games st) (games (createGame sid uname tok rnd st).1)).
Proof.
  intros H.
  specialize (H "s3" (Some "cy") "a" 0 (with_games [ ("game_a", x_won) ])
                (ex_intro _ x_wins x_wins_state) "game_a" x_won eq_refl).
  vm_compute in H. discriminate H.
Qed.

Example createGame_same_token :
  createGame "s3" (Some "cy") "a" 0 (with_games [ ("game_a", x_won) ])
  = (with_games
       [ ("game_a",
          {| players := [ {| id := "s3"; username := "cy"; symbol := X;
                             disconnected := false |} ];
             board := emptyBoard; currentPlayer := X;
             status := "waiting"; winner := None |}) ],
     [ SocketJoin "game_a";
       SocketEmit (gameCreated "game_a" "cy" emptyBoard) ]).
Proof. vm_compute. reflexivity. Qed.

(** C9, amended.  The ids of a reachable state are pairwise distinct,
    before and after any [createGame].  When the generated id
    ['game_' + tok] is not the id of a live game, [createGame] displaces
    nothing: every game of the table is still found under its id,
    unchanged, and the new one-player game is added at the end under
    the new id.  (When the id is taken, nothing is promised.) *)
Theorem createGame_fresh sid uname tok rnd (st : server)
    (Hreach : reachable st)
    (Hfresh : games_get ("game_" +:+ tok) (games st) = None) :
  NoDup (map fst (games st)) /\
  NoDup (map fst (games (createGame sid uname tok rnd st).1)) /\
  none_displaced (games st) (games (createGame sid uname tok rnd st).1) /\
  map fst (games (createGame sid uname tok rnd st).1)
  = map fst (games st) ++ [ "game_" +:+ tok ] /\
  exists name,
    games_get ("game_" +:+ tok) (games (createGame sid uname tok rnd st).1)
    = Some {| players := [ {| id := sid; username := name; symbol := X;
                              disconnected := false |} ];
              board := replicate 9 None; currentPlayer := X;
              status := "waiting"; winner := None |}.
Proof.
  pose proof (reachable_NoDup _ Hreach) as Hnd.
  unfold createGame. simpl. split_and!.
  - exact Hnd.
  - by apply games_set_NoDup.
  - intros k g Hk. rewrite games_get_set_ne; [done|].
    intros <-. congruence.
  - apply games_get_None in Hfresh.
    rewrite games_set_keys_fresh, map_app by done. done.
  - eexists. apply games_get_set_eq.
Qed.

Lemma createGame_fresh_witness :
  reachable (run x_wins init) /\
  games_get ("game_" +:+ "b") (games (run x_wins init)) = None /\
  none_displaced (games (run x_wins init))
    (games (createGame "s3" (Some "cy") "b" 0 (run x_wins init)).1).
Proof.
  assert (reachable (run x_wins init)) as Hr by (exists x_wins; reflexivity).
  assert (games_get ("game_" +:+ "b") (games (run x_wins init)) = None) as Hf
    by (vm_compute; reflexivity).
  split; [exact Hr|]. split; [exact Hf|].
  exact (proj1 (proj2 (proj2
           (createGame_fresh "s3" (Some "cy") "b" 0 (run x_wins init) Hr Hf)))).
Defined.

(** ** Cell indices outside the board *)

(** C10.  For an existing game with its 9-cell board and an integer
    [cellIndex] below 0 or above 8, [board[cellIndex]] reads
    [undefined], which is not [null], so [makeMove] answers 'Space
    already taken' and leaves the state unchanged.  Hence whenever
    [makeMove] changes the state, or answers anything but an error,
    [cellIndex] is one of 0..8: the assignment to the board is never
    made outside the array. *)
Theorem makeMove_out_of_range sid gameId cellIndex (st : server) g
    (Hg : games_get gameId (games st) = Some g)
    (Hlen : length (board g) = 9) :
  ((cellIndex < 0 \/ 8 < cellIndex)%Z ->
     board_at (board g) cellIndex = None /\
     makeMove sid gameId cellIndex st
     = (st, [ SocketEmit (moveError msg_cell_taken) ])) /\
  ((makeMove sid gameId cellIndex st).1 <> st ->
     (0 <= cellIndex <= 8)%Z) /\
  ((forall err, (makeMove sid gameId cellIndex st).2
                <> [ SocketEmit (moveError err) ]) ->
     (0 <= cellIndex <= 8)%Z).
Proof.
  assert ((cellIndex < 0 \/ 8 < cellIndex)%Z ->
          board_at (board g) cellIndex = None /\
          makeMove sid gameId cellIndex st
          = (st, [ SocketEmit (moveError msg_cell_taken) ])) as Hout.
  { intros Hr.
    assert (board_at (board g) cellIndex = None) as Hu
      by (apply board_at_out_of_range; lia).
    split; [exact Hu|]. apply (makeMove_cell_taken _ _ _ _ g Hg).
    rewrite Hu. discriminate. }
  split; [exact Hout|]. split.
  - intros Hch.
    destruct (decide (0 <= cellIndex <= 8)%Z) as [?|Hn]; [done|].
    exfalso. apply Hch. destruct Hout as [_ ->]; [lia | done].
  - intros Hne.
    destruct (decide (0 <= cellIndex <= 8)%Z) as [?|Hn]; [done|].
    exfalso. apply (Hne msg_cell_taken).
    destruct Hout as [_ ->]; [lia | done].
Qed.

Lemma makeMove_out_of_range_witness :
  games_get "game_a" (games (with_games [ ("game_a", x_won) ])) = Some x_won /\
  length (board x_won) = 9 /\
  makeMove "s1" "game_a" 9 (with_games [ ("game_a", x_won) ])
  = (with_games [ ("game_a", x_won) ],
     [ SocketEmit (moveError msg_cell_taken) ]).
Proof.
  split; [reflexivity|]. split; [reflexivity|].
  refine (proj2 (proj1 (makeMove_out_of_range "s1" "game_a" 9
                          (with_games [ ("game_a", x_won) ]) x_won
                          eq_refl eq_refl) _)).
  right. reflexivity.
Defined.

(** The boards of a reachable state have 9 cells, so the previous
    statement applies to every game the server can hold. *)
Lemma reachable_board_length (st : server) k g :
  reachable st -> games_get k (games st) = Some g -> length (board g) = 9.
Proof.
  intros Hr Hg. apply reachable_ok in Hr.
  by destruct (store_ok_get _ _ _ Hr Hg).
Qed.

Example move_negative_index :
  makeMove "s1" "game_a" (-1) (with_games [ ("game_a", x_won) ])
  = (with_games [ ("game_a", x_won) ],
     [ SocketEmit (moveError msg_cell_taken) ]).
Proof. vm_compute. reflexivity. Qed.

(** ** [checkWinner] on the boards the server holds *)

(** On the board of a reachable game all uniform lines hold one symbol,
    so [checkWinner] returns [Win s] exactly when some line is
    uniformly [s]. *)
Lemma checkWinner_reachable (st : server) k g s :
  reachable st -> games_get k (games st) = Some g ->
  (checkWinner (board g) = Win s <->
   exists p, p ∈ lines /\ uniform (board g) p s).
Proof.
  intros Hr Hg. apply reachable_ok in Hr.
  destruct (store_ok_get _ _ _ Hr Hg) as (_ & _ & _ & _ & _ & Hl).
  destruct (decide (s = currentPlayer g)) as [-> | Hne].
  - apply checkWinner_Win_one_symbol. intros p Hp Hu.
    specialize (Hl p _ Hp Hu). by destruct (currentPlayer g).
  - split.
    + intros HW. apply checkWinner_Win_line in HW as (p & Hp & Hu).
      destruct (Hne (Hl p s Hp Hu)).
    + intros (p & Hp & Hu). destruct (Hne (Hl p s Hp Hu)).
Qed.

(** * Further properties of the handlers *)

(** ** Escaping chat text *)

Lemma count_char_app c (a b : string) :
  count_char c (a +:+ b) = count_char c a + count_char c b.
Proof. induction a as [|x a IH]; simpl; [done|]. rewrite IH. lia. Qed.

Lemma length_string_app (a b : string) :
  String.length (a +:+ b) = String.length a + String.length b.
Proof. induction a as [|x a IH]; simpl; [done|]. by rewrite IH. Qed.

(** Occurrences of [d] after replacing every [c] by [rep]. *)
Lemma count_char_replace d c rep s :
  count_char d (replace_char c rep s)
  = (if Ascii.eqb d c then 0 else count_char d s)
    + count_char c s * count_char d rep.
Proof.
  induction s as [|a s IH]; simpl; [by destruct (Ascii.eqb d c)|].
  destruct (Ascii.eqb a c) eqn:Eac.
  - apply Ascii.eqb_eq in Eac as ->.
    rewrite count_char_app, IH. simpl.
    destruct (Ascii.eqb d c) eqn:Edc.
    + apply Ascii.eqb_eq in Edc as ->. lia.
    + rewrite Ascii.eqb_sym, Edc. lia.
  - simpl. rewrite IH. destruct (Ascii.eqb d c) eqn:Edc.
    + apply Ascii.eqb_eq in Edc as ->. rewrite Eac. lia.
    + lia.
Qed.

Lemma length_replace_char c rep s :
  String.length (replace_char c rep s) + count_char c s
  = String.length s + count_char c s * String.length rep.
Proof.
  induction s as [|a s IH]; simpl; [done|].
  destruct (Ascii.eqb a c); simpl.
  - rewrite length_string_app. lia.
  - lia.
Qed.

Lemma replace_char_absent c rep s :
  count_char c s = 0 -> replace_char c rep s = s.
Proof.
  induction s as [|a s IH]; simpl; [done|].
  destruct (Ascii.eqb a c); [done|]. intros H. by rewrite IH.
Qed.

Lemma escape_count d message :
  count_char d (escape message)
  = (if Ascii.eqb d ">" then 0
     else (if Ascii.eqb d "<" then 0 else count_char d message)
          + count_char "<" message * count_char d "&lt;")
    + count_char ">" message * count_char d "&gt;".
Proof.
  unfold escape. rewrite count_char_replace.
  rewrite !(count_char_replace _ "<"%char). simpl. lia.
Qed.

Lemma escape_clean message :
  count_char "<" (escape message) = 0 /\ count_char ">" (escape message) = 0.
Proof. rewrite !escape_count. simpl. lia. Qed.

(** X1.  The escaped text holds no ['<'] and no ['>']; every bracket
    of the message became a four-character entity, so the text grew by
    three characters per bracket; and a character that is neither a
    bracket nor one of [& l t g ;] occurs as often as before. *)
Theorem escape_spec message :
  count_char "<" (escape message) = 0 /\
  count_char ">" (escape message) = 0 /\
  String.length (escape message)
  = String.length message
    + 3 * (count_char "<" message + count_char ">" message) /\
  forall d, d <> "<"%char -> d <> ">"%char ->
            count_char d "&lt;&gt;" = 0 ->
            count_char d (escape message) = count_char d message.
Proof.
  split; [apply escape_clean|]. split; [apply escape_clean|]. split.
  - unfold escape.
    pose proof (length_replace_char ">" "&gt;"
                  (replace_char "<" "&lt;" message)) as H1.
    pose proof (length_replace_char "<" "&lt;" message) as H2.
    rewrite count_char_replace in H1. simpl in *. lia.
  - intros d Hlt Hgt Hd. rewrite escape_count.
    change "&lt;&gt;" with ("&lt;" +:+ "&gt;") in Hd.
    rewrite count_char_app in Hd.
    assert (count_char d "&lt;" = 0) as -> by lia.
    assert (count_char d "&gt;" = 0) as -> by lia.
    apply Ascii.eqb_neq in Hlt, Hgt. rewrite Hlt, Hgt. lia.
Qed.

Lemma escape_spec_witness :
  count_char "h" (escape "<b>hi</b>") = count_char "h" "<b>hi</b>".
Proof.
  apply (proj2 (proj2 (proj2 (escape_spec "<b>hi</b>")))).
  - discriminate.
  - discriminate.
  - reflexivity.
Defined.

(** X2.  A message without brackets is relayed as it is, escaping an
    escaped text changes nothing, and, as ['&'] is left alone, two
    different messages can be relayed as the same text. *)
Theorem escape_fixpoints :
  (forall message,
     count_char "<" message = 0 -> count_char ">" message = 0 ->
     escape message = message) /\
  (forall message, escape (escape message) = escape message) /\
  ~ (forall a b, escape a = escape b -> a = b).
Proof.
  assert (forall message,
            count_char "<" message = 0 -> count_char ">" message = 0 ->
            escape message = message) as Hid.
  { intros message Hl Hg. unfold escape.
    rewrite (replace_char_absent "<") by done.
    by rewrite replace_char_absent. }
  split; [exact Hid|]. split.
  - intros message. apply Hid; apply escape_clean.
  - intros H. specialize (H "<" "&lt;" eq_refl). discriminate H.
Qed.

Lemma escape_fixpoints_witness : escape "good game" = "good game".
Proof.
  apply (proj1 escape_fixpoints "good game"); reflexivity.
Defined.

(** ** [sendMessage] *)

(** X3.  [sendMessage] never changes the state.  When [games[gameId]]
    is falsy it sends nothing.  When it is truthy, which it is for a
    stored record and also for an inherited property such as
    ['__proto__'] or ['constructor'], it sends the escaped message to
    the rest of the room, with the sender name and sender id as they
    were received, and back to the socket under the name 'You'.  The
    message field of every event it sends is the escaped message and
    holds no ['<'] and no ['>']; the sender name and id are passed on
    without escaping. *)
Theorem sendMessage_spec sid gameId message sender senderId ts1 ts2
    (st : server) :
  (sendMessage sid gameId message sender senderId ts1 ts2 st).1 = st /\
  (is_truthy (games_lookup gameId st) = false ->
     (sendMessage sid gameId message sender senderId ts1 ts2 st).2 = []) /\
  (is_truthy (games_lookup gameId st) = true ->
     (sendMessage sid gameId message sender senderId ts1 ts2 st).2
     = [ BroadcastEmit gameId
           (messageReceived gameId sender senderId (escape message) ts1);
         ChatEmit (messageSent gameId "You" senderId (escape message) ts2) ]) /\
  ((is_Some (games_get gameId (games st)) \/
    gameId = "__proto__" \/ gameId ∈ inherited_methods) ->
     is_truthy (games_lookup gameId st) = true) /\
  (forall a,
     a ∈ (sendMessage sid gameId message sender senderId ts1 ts2 st).2 ->
     chat_text a = escape message /\
     count_char "<" (chat_text a) = 0 /\ count_char ">" (chat_text a) = 0 /\
     (chat_sender a = sender \/ chat_sender a = "You") /\
     chat_senderId a = senderId).
Proof.
  split_and!.
  - unfold sendMessage. by destruct (is_truthy _).
  - intros H. unfold sendMessage. by rewrite H.
  - intros H. unfold sendMessage. by rewrite H.
  - intros [[g Hg] | H].
    + by rewrite (games_lookup_record _ _ _ Hg).
    + unfold games_lookup. destruct (games_get gameId (games st)); [done|].
      unfold inherited. destruct H as [-> | H]; [done|].
      case_bool_decide; [done|]. by rewrite bool_decide_eq_true_2.
  - intros a Ha. unfold sendMessage in Ha.
    destruct (is_truthy (games_lookup gameId st)); simpl in Ha;
      [|by inversion Ha].
    apply elem_of_cons in Ha as [-> | Ha].
    + simpl. split_and!; try apply escape_clean; auto.
    + apply list_elem_of_singleton in Ha as ->. simpl.
      split_and!; try apply escape_clean; auto.
Qed.

Lemma sendMessage_spec_witness :
  (sendMessage "s1" "constructor" "<i>hi</i>" "<b>ann</b>" "s1"
     "10:00" "10:00" init).2
  = [ BroadcastEmit "constructor"
        (messageReceived "constructor" "<b>ann</b>" "s1"
           "&lt;i&gt;hi&lt;/i&gt;" "10:00");
      ChatEmit (messageSent "constructor" "You" "s1"
                  "&lt;i&gt;hi&lt;/i&gt;" "10:00") ].
Proof.
  pose proof (sendMessage_spec "s1" "constructor" "<i>hi</i>" "<b>ann</b>"
                "s1" "10:00" "10:00" init) as (_ & _ & Hrelay & Htruthy & _).
  rewrite Hrelay; [reflexivity|]. apply Htruthy.
  right. right. vm_compute. by left.
Defined.

(** ** Moves, one after another *)

Lemma applyMove_currentPlayer_NoWinner g cellIndex :
  checkWinner (<[Z.to_nat cellIndex := Some (currentPlayer g)]> (board g))
  = NoWinner ->
  currentPlayer (applyMove g cellIndex) = flip (currentPlayer g).
Proof. intros E. unfold applyMove. by rewrite E. Qed.

(** X4.  No [makeMove], accepted or refused, ever changes or clears a
    cell that holds a symbol, in any stored game, and no board
    changes its length: a mark stays until a rematch. *)
Theorem makeMove_keeps_marks sid gameId cellIndex (st : server) k g
    (Hg : games_get k (games st) = Some g) :
  exists g',
    games_get k (games (makeMove sid gameId cellIndex st).1) = Some g' /\
    length (board g') = length (board g) /\
    forall j s, board_at (board g) j = Some (Some s) ->
                board_at (board g') j = Some (Some s).
Proof.
  destruct (games_get gameId (games st)) as [g0|] eqn:Hg0.
  - rewrite (makeMove_record _ _ _ _ _ Hg0).
    destruct (validateMove sid g0 cellIndex) as [err|p] eqn:Hv;
      [by exists g|].
    simpl. destruct (decide (gameId = k)) as [-> | Hne].
    + assert (g0 = g) as -> by congruence.
      exists (applyMove g cellIndex). rewrite games_get_set_eq.
      rewrite applyMove_board, length_insert. split_and!; try done.
      intros j s Hj. apply validateMove_inr in Hv as (Hc & _ & _).
      pose proof (board_at_null_range _ _ Hc) as Hr.
      rewrite board_at_insert_ne; [done | lia |]. intros <-. congruence.
    + exists g. by rewrite games_get_set_ne.
  - rewrite (proj1 (makeMove_no_record sid gameId cellIndex st Hg0)).
    by exists g.
Qed.

Lemma makeMove_keeps_marks_witness :
  exists g',
    games_get "game_a" (games (makeMove "s1" "game_a" 5 (with_games [ ("game_a", x_won) ])).1)
    = Some g' /\
    length (board g') = length (board x_won) /\
    forall j s, board_at (board x_won) j = Some (Some s) ->
                board_at (board g') j = Some (Some s).
Proof.
  apply (makeMove_keeps_marks "s1" "game_a" 5 (with_games [ ("game_a", x_won) ])
           "game_a" x_won).
  reflexivity.
Defined.

(** X5.  After an accepted move that decides nothing, the turn has
    passed: every further [makeMove] of the same socket on that game,
    for any cell, is refused and leaves the state unchanged. *)
Theorem makeMove_turn_passes sid gameId cellIndex (st : server) g p
    (Hg : games_get gameId (games st) = Some g)
    (Hcell : board_at (board g) cellIndex = Some None)
    (Hplayer : find_player sid (players g) = Some p)
    (Hturn : symbol p = currentPlayer g)
    (Hopen : checkWinner
               (<[Z.to_nat cellIndex := Some (currentPlayer g)]> (board g))
             = NoWinner) :
  forall cellIndex',
    move_refused sid gameId cellIndex'
      (makeMove sid gameId cellIndex st).1.
Proof.
  intros cellIndex'.
  assert (validateMove sid g cellIndex = inr p) as Hv
    by (apply validateMove_inr; done).
  rewrite (makeMove_accepted _ _ _ _ _ _ Hg Hv). simpl.
  set (g' := applyMove g cellIndex).
  assert (exists err, validateMove sid g' cellIndex' = inl err) as [err Herr].
  { destruct (validateMove sid g' cellIndex') as [err|q] eqn:Hv'; [by eexists|].
    exfalso. apply validateMove_inr in Hv' as (_ & Hq & Hs).
    unfold g' in Hq, Hs. rewrite applyMove_players in Hq.
    rewrite applyMove_currentPlayer_NoWinner in Hs by done.
    assert (q = p) as -> by congruence.
    rewrite Hturn in Hs. by destruct (currentPlayer g). }
  unfold move_refused.
  rewrite (makeMove_rejected _ _ _ _ g' err); [|apply games_get_set_eq|done].
  simpl. split; [done | by eexists].
Qed.

Lemma makeMove_turn_passes_witness :
  move_refused "s1" "game_a" 1
    (makeMove "s1" "game_a" 0 (with_games [ ("game_a", started) ])).1.
Proof.
  apply (makeMove_turn_passes "s1" "game_a" 0 (with_games [ ("game_a", started) ])
           started ann); reflexivity.
Defined.

(** X6.  Once a move on a cell was accepted, every [makeMove] on that
    cell of that game, from any socket, answers 'Space already taken'
    and changes nothing. *)
Theorem makeMove_cell_then_taken sid gameId cellIndex (st : server) g p
    (Hg : games_get gameId (games st) = Some g)
    (Hcell : board_at (board g) cellIndex = Some None)
    (Hplayer : find_player sid (players g) = Some p)
    (Hturn : symbol p = currentPlayer g) :
  forall sid',
    makeMove sid' gameId cellIndex (makeMove sid gameId cellIndex st).1
    = ((makeMove sid gameId cellIndex st).1,
       [ SocketEmit (moveError msg_cell_taken) ]).
Proof.
  intros sid'.
  assert (validateMove sid g cellIndex = inr p) as Hv
    by (apply validateMove_inr; done).
  rewrite (makeMove_accepted _ _ _ _ _ _ Hg Hv). simpl.
  apply (makeMove_cell_taken _ _ _ _ (applyMove g cellIndex)).
  - apply games_get_set_eq.
  - rewrite applyMove_board, board_at_insert_eq; [done|].
    by apply board_at_null_range.
Qed.

Lemma makeMove_cell_then_taken_witness :
  makeMove "s2" "game_a" 0 (makeMove "s1" "game_a" 0 (with_games [ ("game_a", started) ])).1
  = ((makeMove "s1" "game_a" 0 (with_games [ ("game_a", started) ])).1,
     [ SocketEmit (moveError msg_cell_taken) ]).
Proof.
  apply (makeMove_cell_then_taken "s1" "game_a" 0 (with_games [ ("game_a", started) ])
           started ann); reflexivity.
Defined.

(** X7.  In a reachable state, a game won by [s] stays won by [s]: a
    move that is still accepted leaves [winner] at [s] and
    [currentPlayer] at [s]. *)
Theorem win_persists sid gameId cellIndex (st : server) g p s
    (Hreach : reachable st)
    (Hg : games_get gameId (games st) = Some g)
    (Hwon : winner g = Some (Win s))
    (Hcell : board_at (board g) cellIndex = Some None)
    (Hplayer : find_player sid (players g) = Some p)
    (Hturn : symbol p = currentPlayer g) :
  exists g',
    games_get gameId (games (makeMove sid gameId cellIndex st).1) = Some g' /\
    winner g' = Some (Win s) /\ currentPlayer g' = s.
Proof.
  assert (validateMove sid g cellIndex = inr p) as Hv
    by (apply validateMove_inr; done).
  pose proof (winner_is_currentPlayer _ _ _ _ Hreach Hg Hwon) as Hcp.
  apply reachable_ok in Hreach.
  destruct (store_ok_get _ _ _ Hreach Hg) as (_ & _ & _ & _ & Hplay).
  pose proof (applyMove_play_ok _ _ Hplay Hcell) as [_ Hl'].
  assert (has_line (<[Z.to_nat cellIndex := Some (currentPlayer g)]> (board g)))
    as HL.
  { apply has_line_insert; [done|].
    eapply play_ok_decided_line; eauto. }
  apply checkWinner_some_Win in HL as [s' Hs'].
  rewrite (makeMove_accepted _ _ _ _ _ _ Hg Hv). simpl.
  exists (applyMove g cellIndex). split; [apply games_get_set_eq|].
  assert (currentPlayer (applyMove g cellIndex) = currentPlayer g) as Hsame
    by (unfold applyMove; by rewrite Hs').
  assert (winner (applyMove g cellIndex) = Some (Win s')) as Hw'
    by (unfold applyMove; by rewrite Hs').
  rewrite Hsame, Hw'. split; [|done].
  rewrite <- applyMove_board in Hs'.
  apply checkWinner_Win_line in Hs' as (q & Hq & Hu).
  specialize (Hl' q s' Hq Hu). congruence.
Qed.

Lemma win_persists_witness :

  exists g',
    games_get "game_a"
      (games (makeMove "s1" "game_a" 5 (run x_wins init)).1) = Some g' /\
    winner g' = Some (Win X) /\ currentPlayer g' = X.
Proof.
  assert (reachable (run x_wins init)) as Hr by (exists x_wins; reflexivity).
  assert (games_get "game_a" (games (run x_wins init)) = Some x_won) as Hg
    by (vm_compute; reflexivity).
  apply (win_persists "s1" "game_a" 5 (run x_wins init) x_won ann X Hr Hg);
    reflexivity.
Defined.

(** X8.  A join, move, rematch or leave that names the id [gameId]
    leaves the stored record of every other id as it was.  When
    [gameId] has a stored record, nothing inherited changes either, so
    [games[k]] is what it was for every other [k].  When [gameId] has
    no stored record, the state stays as it was with one exception: a
    rematch that finds an inherited object assigns the four fields to
    that object, and for ['__proto__'] that object is
    [Object.prototype], so that afterwards [games['board']] is an
    array and a record without a [winner] of its own reads [null].  A
    leave that finds an inherited object ends in an uncaught
    [TypeError] before [socket.leave]. *)
Theorem handlers_touch_one_game sid r gameId (st : server)
    (Haddr : addresses r gameId) :
  (forall k, k <> gameId ->
     games_get k (games (handle sid r st).1) = games_get k (games st)) /\
  (is_Some (games_get gameId (games st)) ->
     protoReset (handle sid r st).1 = protoReset st /\
     methodsReset (handle sid r st).1 = methodsReset st /\
     forall k, k <> gameId ->
       games_lookup k (handle sid r st).1 = games_lookup k st) /\
  (games_get gameId (games st) = None ->
     (handle sid r st).1 = st \/
     (r = RequestRematch gameId /\
      is_truthy (inherited st gameId) = true /\
      (handle sid r st).1 = reset_inherited st (inherited st gameId))) /\
  (games_get gameId (games st) = None ->
   is_truthy (inherited st gameId) = true ->
   (handle sid (LeaveGame gameId) st).2 = [ UncaughtTypeError ]) /\
  (games_lookup "board" (handle sid (RequestRematch "__proto__") init).1
   = VArray /\
   games_lookup "board" init = VUndefined /\
   forall g, winner g = None ->
     reads_winner (handle sid (RequestRematch "__proto__") init).1 g
     = Some NoWinner /\
     reads_winner init g = None).
Proof.
  assert (forall k, k <> gameId ->
            games_get k (games (handle sid r st).1) = games_get k (games st))
    as Hother.
  { intros k Hk. destruct (games_get gameId (games st)) as [g|] eqn:Hg;
      [|by rewrite (handle_no_record _ _ _ _ Haddr Hg)].
    destruct r as [u tok rnd | gid u rnd | gid cellIndex | gid | | gid];
      simpl in Haddr; try done; subst gid; simpl.
    - rewrite (joinGame_record _ _ _ _ _ _ Hg).
      case_bool_decide; [done|]. simpl. by apply games_get_set_ne.
    - rewrite (makeMove_record _ _ _ _ _ Hg).
      destruct (validateMove sid g cellIndex); [done|]. simpl.
      by apply games_get_set_ne.
    - rewrite (requestRematch_record _ _ _ _ Hg). simpl.
      by apply games_get_set_ne.
    - rewrite (leaveGame_record _ _ _ _ Hg).
      destruct (findIndex_player sid (players g)) as [i|]; [|done].
      unfold removePlayer. destruct (delete i (players g)); simpl.
      + by apply games_get_delete_ne.
      + by apply games_get_set_ne. }
  split; [exact Hother|]. split_and!.
  - intros [g Hg].
    assert (protoReset (handle sid r st).1 = protoReset st /\
            methodsReset (handle sid r st).1 = methodsReset st) as [Hp Hm].
    { destruct r as [u tok rnd | gid u rnd | gid cellIndex | gid | | gid];
        simpl in Haddr; try done; subst gid; simpl.
      - rewrite (joinGame_record _ _ _ _ _ _ Hg). by case_bool_decide.
      - rewrite (makeMove_record _ _ _ _ _ Hg).
        by destruct (validateMove sid g cellIndex).
      - by rewrite (requestRematch_record _ _ _ _ Hg).
      - rewrite (leaveGame_record _ _ _ _ Hg).
        destruct (findIndex_player sid (players g)) as [i|]; [|done].
        unfold removePlayer. by destruct (delete i (players g)). }
    split; [exact Hp|]. split; [exact Hm|].
    intros k Hk. unfold games_lookup. rewrite (Hother k Hk).
    destruct (games_get k (games st)); [done|].
    unfold inherited. by rewrite Hp.
  - intros Hg.
    destruct r as [u tok rnd | gid u rnd | gid cellIndex | gid | | gid];
      simpl in Haddr; try done; subst gid; simpl.
    + left. unfold joinGame. rewrite (games_lookup_own_None _ _ Hg).
      destruct (inherited st gameId) eqn:E; simpl; try done.
      * by apply inherited_not_record in E.
      * by case_bool_decide.
    + left. apply (makeMove_no_record sid gameId cellIndex st Hg).
    + unfold requestRematch. rewrite (games_lookup_own_None _ _ Hg).
      destruct (is_truthy (inherited st gameId)) eqn:Et; simpl; [|by left].
      right. split; [done|]. split; [done|].
      destruct (inherited st gameId) eqn:E; try done.
      by apply inherited_not_record in E.
    + left. unfold leaveGame. rewrite (games_lookup_own_None _ _ Hg).
      destruct (is_truthy (inherited st gameId)); simpl; [|done].
      destruct (inherited st gameId) eqn:E; try done.
      by apply inherited_not_record in E.
  - intros Hg Ht. simpl. unfold leaveGame.
    rewrite (games_lookup_own_None _ _ Hg), Ht.
    destruct (inherited st gameId) eqn:E; try done.
    by apply inherited_not_record in E.
  - reflexivity.
  - reflexivity.
  - intros g Hw. unfold reads_winner. rewrite Hw. split; reflexivity.
Qed.

Lemma handlers_touch_one_game_witness :
  games_get "game_b"
    (games (handle "s1" (LeaveGame "game_a")
              (with_games [ ("game_a", started); ("game_b", waiting_game) ])).1)
  = Some waiting_game /\
  games_lookup "constructor"
    (handle "s1" (LeaveGame "game_a")
       (with_games [ ("game_a", started); ("game_b", waiting_game) ])).1
  = VMethod "constructor".
Proof.
  pose proof (handlers_touch_one_game "s1" (LeaveGame "game_a") "game_a"
                (with_games [ ("game_a", started); ("game_b", waiting_game) ])
                eq_refl) as (Hother & Hrec & _).
  split.
  - rewrite Hother; [reflexivity | discriminate].
  - destruct Hrec as (_ & _ & Hlook); [by eexists|].
    rewrite Hlook; [reflexivity | discriminate].
Defined.
Lemma seats_ok_reachable (st : server) k g :
  reachable st -> games_get k (games st) = Some g -> seats_ok g.
Proof.
  apply (reachable_all_P seats_ok).
  - intros sid name. unfold seats_ok. simpl. split_and!; [lia|done|].
    intros _. eexists. split; reflexivity.
  - intros g0 sid name (Hlen & Hsec & Hwait) Hlt. unfold seats_ok. simpl.
    rewrite length_app. simpl. split_and!; [lia| |done].
    intros p Hp. destruct (players g0) as [|p0 [|p1 rest]]; simpl in *.
    + done.
    + injection Hp as Hp. by rewrite <- Hp.
    + lia.
  - intros sid g0 cellIndex p Hok _. unfold seats_ok.
    by rewrite applyMove_players, applyMove_status.
  - intros g0 (Hlen & Hsec & Hwait). unfold seats_ok. simpl.
    split_and!; done.
  - intros g0 i q rest (Hlen & Hsec & Hwait) Hdel. unfold seats_ok. simpl.
    destruct (players g0) as [|p0 [|p1 [|p2 more]]]; simpl in *; try lia.
    + done.
    + destruct i; simpl in Hdel; [done|]. injection Hdel as <- <-.
      simpl. split_and!; [lia | done | done].
    + destruct i as [|[|i]]; simpl in Hdel; injection Hdel as <- <-;
        simpl; split_and!; try lia; try done;
        intros Hw; destruct (Hwait Hw) as (? & ? & _); done.
Qed.

(** X9.  In every reachable state each game has a board of 9 cells and
    one or two players; a second player always holds ['O']; and a game
    whose status is 'waiting' has exactly its creator, holding ['X']. *)
Theorem reachable_seats (st : server) k g
    (Hreach : reachable st) (Hg : games_get k (games st) = Some g) :
  length (board g) = 9 /\
  1 <= length (players g) <= 2 /\
  (forall p, players g !! 1 = Some p -> symbol p = O) /\
  (status g = "waiting" -> exists p, players g = [p] /\ symbol p = X).
Proof.
  destruct (seats_ok_reachable _ _ _ Hreach Hg) as (_ & Hsec & Hwait).
  apply reachable_ok in Hreach.
  destruct (store_ok_get _ _ _ Hreach Hg) as (Hb & Hp & _).
  done.
Qed.

Lemma reachable_seats_witness :
  reachable (run both_O init) /\
  games_get "game_a" (games (run both_O init)) = Some two_O /\
  length (board two_O) = 9 /\
  forall p, players two_O !! 1 = Some p -> symbol p = O.
Proof.
  assert (reachable (run both_O init)) as Hr by (exists both_O; reflexivity).
  assert (games_get "game_a" (games (run both_O init)) = Some two_O) as Hg
    by (vm_compute; reflexivity).
  split; [exact Hr|]. split; [exact Hg|].
  destruct (reachable_seats (run both_O init) "game_a" two_O Hr Hg)
    as (Hb & _ & Hsec & _).
  split; [exact Hb | exact Hsec].
Defined.

(** X10.  In every reachable state a decided [winner] is exactly what
    [checkWinner] returns on the game's current board; so a game marked
    'Tie' has a symbol in each of its 9 cells, and a game won by [s]
    shows a row, column or diagonal uniformly [s]. *)
Theorem winner_matches_board (st : server) k g
    (Hreach : reachable st) (Hg : games_get k (games st) = Some g) :
  (forall w, winner g = Some w -> w <> NoWinner -> checkWinner (board g) = w) /\
  (winner g = Some Tie ->
     forall i, (0 <= i <= 8)%Z -> exists s, board_at (board g) i = Some (Some s)) /\
  (forall s, winner g = Some (Win s) ->
     exists p, p ∈ lines /\ uniform (board g) p s).
Proof.
  apply reachable_ok in Hreach.
  destruct (store_ok_get _ _ _ Hreach Hg) as (Hb & _ & _ & _ & Hwin & _).
  split_and!.
  - intros w Hw Hn. apply Hwin; [done|]. by destruct w.
  - intros Ht i Hi. specialize (Hwin _ Ht eq_refl).
    destruct (board_at (board g) i) as [[s|]|] eqn:E.
    + by exists s.
    + destruct (checkWinner_Tie_full _ _ Hwin E).
    + exfalso. unfold board_at in E.
      destruct (Z.leb_spec 0 i); [|lia].
      apply lookup_ge_None in E. lia.
  - intros s Hs. apply checkWinner_Win_line. by apply Hwin.
Qed.

Lemma winner_matches_board_witness :
  reachable (run tie_game init) /\
  games_get "game_a" (games (run tie_game init)) = Some tied /\
  checkWinner (board tied) = Tie.
Proof.
  assert (reachable (run tie_game init)) as Hr by (exists tie_game; reflexivity).
  assert (games_get "game_a" (games (run tie_game init)) = Some tied) as Hg
    by (vm_compute; reflexivity).
  split; [exact Hr|]. split; [exact Hg|].
  apply (proj1 (winner_matches_board (run tie_game init) "game_a" tied Hr Hg)).
  - reflexivity.
  - discriminate.
Defined.

(** X11.  On the board of a reachable game all uniform lines hold the
    same symbol, the one of [currentPlayer]; so the board never shows a
    line of each symbol, and [checkWinner] returns [Win s] exactly when
    some line is uniformly [s]. *)
Theorem one_winning_symbol (st : server) k g
    (Hreach : reachable st) (Hg : games_get k (games st) = Some g) :
  (forall p s, p ∈ lines -> uniform (board g) p s -> s = currentPlayer g) /\
  (forall p q, p ∈ lines -> q ∈ lines ->
     ~ (uniform (board g) p X /\ uniform (board g) q O)) /\
  (forall s, checkWinner (board g) = Win s <->
             exists p, p ∈ lines /\ uniform (board g) p s).
Proof.
  assert (forall s, checkWinner (board g) = Win s <->
                    exists p, p ∈ lines /\ uniform (board g) p s) as Hiff
    by (intros s; by apply (checkWinner_reachable st k g s)).
  apply reachable_ok in Hreach.
  destruct (store_ok_get _ _ _ Hreach Hg) as (_ & _ & _ & _ & _ & Hl).
  split_and!.
  - exact Hl.
  - intros p q Hp Hq [Hx Ho].
    pose proof (Hl p X Hp Hx). pose proof (Hl q O Hq Ho). congruence.
  - exact Hiff.
Qed.

Lemma one_winning_symbol_witness :
  reachable (run x_wins init) /\
  games_get "game_a" (games (run x_wins init)) = Some x_won /\
  forall p s, p ∈ lines -> uniform (board x_won) p s -> s = X.
Proof.
  assert (reachable (run x_wins init)) as Hr by (exists x_wins; reflexivity).
  assert (games_get "game_a" (games (run x_wins init)) = Some x_won) as Hg
    by (vm_compute; reflexivity).
  split; [exact Hr|]. split; [exact Hg|].
  exact (proj1 (one_winning_symbol (run x_wins init) "game_a" x_won Hr Hg)).
Defined.


(** ** The ids of the table *)

Lemma removePlayer_inherited gameId g i (st : server) :
  protoReset (removePlayer gameId g i st).1 = protoReset st /\
  methodsReset (removePlayer gameId g i st).1 = methodsReset st.
Proof. unfold removePlayer. by destruct (delete i (players g)). Qed.

Lemma removePlayer_no_fault gameId g i (st : server) :
  UncaughtTypeError ∉ (removePlayer gameId g i st).2.
Proof.
  unfold removePlayer. destruct (delete i (players g)); simpl.
  - apply not_elem_of_nil.
  - intros H. apply list_elem_of_singleton in H. discriminate H.
Qed.

(** Only a rematch that finds [Object.prototype] makes the four fields
    inherited. *)
Lemma handle_protoReset sid r (st : server) :
  protoReset (handle sid r st).1 = protoReset st || resets_prototype r st.
Proof.
  destruct r as [u tok rnd | gameId u rnd | gameId cellIndex
                | gameId | | gameId]; simpl.
  - by rewrite orb_false_r.
  - rewrite orb_false_r. unfold joinGame.
    destruct (games_lookup gameId st); simpl; try done;
      by repeat case_match.
  - rewrite orb_false_r.
    destruct (games_get gameId (games st)) as [g|] eqn:Hg.
    + rewrite (makeMove_record _ _ _ _ _ Hg).
      by destruct (validateMove sid g cellIndex).
    + by rewrite (proj1 (makeMove_no_record sid gameId cellIndex st Hg)).
  - unfold requestRematch.
    destruct (games_lookup gameId st); simpl;
      rewrite ?orb_false_r, ?orb_true_r; try done;
      by repeat case_match.
  - rewrite orb_false_r. unfold disconnect.
    destruct (disconnect_scan_cases sid (enumerated st) st)
      as [-> | [-> | (gameId & g & i & Hg & Hi & ->)]]; [done | done |].
    apply removePlayer_inherited.
  - rewrite orb_false_r. unfold leaveGame.
    destruct (games_lookup gameId st) as [g| | | |s| |]; simpl; try done.
    + destruct (findIndex_player sid (players g)); [|done].
      apply removePlayer_inherited.
    + by repeat case_match.
Qed.

(** [leaveGame] and [disconnect] either end in an uncaught [TypeError]
    with nothing changed, or keep the stored ids or drop one of them. *)
Lemma leave_keys sid r (st : server) :
  r = Disconnect \/ (exists gameId, r = LeaveGame gameId) ->
  ((handle sid r st).1 = st /\ (handle sid r st).2 = [ UncaughtTypeError ]) \/
  ((UncaughtTypeError ∉ (handle sid r st).2) /\
   (map fst (games (handle sid r st).1) = map fst (games st) \/
    exists k, map fst (games (handle sid r st).1)
              = filter (fun k' => k' <> k) (map fst (games st)))).
Proof.
  intros [-> | [gameId ->]]; simpl.
  - unfold disconnect.
    destruct (disconnect_scan_cases sid (enumerated st) st)
      as [-> | [-> | (gameId & g & i & Hg & Hi & ->)]].
    + right. split; [apply not_elem_of_nil | by left].
    + by left.
    + right. split; [apply removePlayer_no_fault|].
      destruct (removePlayer_keys gameId g i st Hg) as [H|H];
        [by left | right; by exists gameId].
  - destruct (games_get gameId (games st)) as [g|] eqn:Hg.
    + right. rewrite (leaveGame_record _ _ _ _ Hg).
      destruct (findIndex_player sid (players g)) as [i|] eqn:Hi; simpl.
      * split.
        -- intros H. apply elem_of_app in H as [H|H].
           ++ by apply removePlayer_no_fault in H.
           ++ apply list_elem_of_singleton in H. discriminate H.
        -- destruct (removePlayer_keys gameId g i st Hg) as [H|H];
             [by left | right; by exists gameId].
      * split; [|by left].
        intros H. apply list_elem_of_singleton in H. discriminate H.
    + unfold leaveGame. rewrite (games_lookup_own_None _ _ Hg).
      destruct (is_truthy (inherited st gameId)) eqn:Et.
      * left. destruct (inherited st gameId) eqn:E; try done.
        by apply inherited_not_record in E.
      * right. simpl. split; [|by left].
        intros H. apply list_elem_of_singleton in H. discriminate H.
Qed.

(** X12.  The stored ids are the own keys of [games], in the order
    [for]-[in] visits them.  Only [createGame] adds one, at the end
    and only when the id is new; join, move and rematch keep the list
    as it is, whether they succeed or fail; leave and disconnect keep
    it or drop one id, keeping the order of the rest, unless they end
    in an uncaught [TypeError], which happens before anything is
    changed.  After the stored ids the loop visits the inherited
    enumerable keys: there are none until a rematch finds
    [Object.prototype] under its id, and from then on they are
    ['board'], ['currentPlayer'], ['winner'], ['status']. *)
Theorem ids_after_request sid r (st : server) :
  match r with
  | CreateGame _ tok _ =>
      map fst (games (handle sid r st).1)
      = if bool_decide ("game_" +:+ tok ∈ map fst (games st))
        then map fst (games st)
        else map fst (games st) ++ [ "game_" +:+ tok ]
  | JoinGame _ _ _ | MakeMove _ _ | RequestRematch _ =>
      map fst (games (handle sid r st).1) = map fst (games st)
  | Disconnect | LeaveGame _ =>
      ((handle sid r st).1 = st /\
       (handle sid r st).2 = [ UncaughtTypeError ]) \/
      ((UncaughtTypeError ∉ (handle sid r st).2) /\
       (map fst (games (handle sid r st).1) = map fst (games st) \/
        exists k, map fst (games (handle sid r st).1)
                  = filter (fun k' => k' <> k) (map fst (games st))))
  end /\
  enumerated (handle sid r st).1
  = map fst (games (handle sid r st).1)
    ++ (if protoReset st || resets_prototype r st then reset_fields else []) /\
  enumerated init = [] /\
  (forall k, resets_prototype (RequestRematch k) st = true ->
             games_get k (games st) = None /\ k = "__proto__") /\
  (games_get "__proto__" (games st) = None ->
   resets_prototype (RequestRematch "__proto__") st = true).
Proof.
  split_and!.
  - pose proof (handle_keys sid r st) as H.
    destruct r as [u tok rnd | gameId u rnd | gameId cellIndex
                  | gameId | | gameId]; try exact H.
    + apply leave_keys. by left.
    + apply leave_keys. right. by eexists.
  - unfold enumerated. by rewrite handle_protoReset.
  - reflexivity.
  - intros k. simpl. unfold games_lookup.
    destruct (games_get k (games st)); [done|]. unfold inherited.
    case_bool_decide as Hk; [done|].
    intros H. exfalso. by repeat case_match.
  - intros H. simpl. unfold games_lookup. by rewrite H.
Qed.

Lemma ids_after_request_witness :
  resets_prototype (RequestRematch "__proto__") init = true /\
  enumerated (handle "s1" (RequestRematch "__proto__") init).1
  = [ "board"; "currentPlayer"; "winner"; "status" ].
Proof.
  destruct (ids_after_request "s1" (RequestRematch "__proto__") init)
    as (_ & Henum & _ & _ & Hproto).
  assert (resets_prototype (RequestRematch "__proto__") init = true) as Hr
    by (apply Hproto; reflexivity).
  split; [exact Hr|]. rewrite Henum, Hr. reflexivity.
Defined.

(** X13.  In a reachable state every stored id is the string 'game_'
    followed by a token drawn by some [createGame]: an id named in a
    request never becomes an own key of [games].  The keys that
    [for]-[in] visits are these ids, followed, once a rematch has
    written on [Object.prototype], by the four field names, which are
    no stored ids. *)
Theorem reachable_ids_prefix (st : server) k
    (Hreach : reachable st) (Hk : k ∈ enumerated st) :
  (k ∈ map fst (games st) /\ exists tok, k = "game_" +:+ tok) \/
  ((k ∉ map fst (games st)) /\ protoReset st = true /\ k ∈ reset_fields).
Proof.
  unfold enumerated in Hk. apply elem_of_app in Hk as [Hk|Hk].
  - left. split; [done|]. by apply (reachable_created st).
  - right. destruct (protoReset st); [|by inversion Hk].
    split; [|done]. intros Hown.
    destruct (reachable_created _ _ Hreach Hown) as [tok ->].
    unfold reset_fields in Hk.
    repeat (apply elem_of_cons in Hk as [Hk|Hk]; [discriminate Hk|]).
    inversion Hk.
Qed.

Lemma reachable_ids_prefix_witness :
  reachable (run (x_wins ++ proto_rematch) init) /\
  enumerated (run (x_wins ++ proto_rematch) init)
  = [ "game_a"; "board"; "currentPlayer"; "winner"; "status" ] /\
  (exists tok, "game_a" = "game_" +:+ tok) /\
  "board" ∉ map fst (games (run (x_wins ++ proto_rematch) init)).
Proof.
  assert (reachable (run (x_wins ++ proto_rematch) init)) as Hr
    by (eexists; reflexivity).
  assert (enumerated (run (x_wins ++ proto_rematch) init)
          = [ "game_a"; "board"; "currentPlayer"; "winner"; "status" ]) as He
    by (vm_compute; reflexivity).
  split; [exact Hr|]. split; [exact He|]. split.
  - destruct (reachable_ids_prefix _ "game_a" Hr) as [[_ H] | [H _]].
    + rewrite He. left.
    + exact H.
    + exfalso. apply H. vm_compute. left.
  - destruct (reachable_ids_prefix _ "board" Hr) as [[H _] | [H _]].
    + rewrite He. right. left.
    + exfalso. vm_compute in H. apply list_elem_of_singleton in H.
      discriminate H.
    + exact H.
Defined.

(** ** Handlers composed *)

Lemma games_set_set k g1 g2 (games : store) :
  games_set k g2 (games_set k g1 games) = games_set k g2 games.
Proof.
  induction games as [|[k0 g0] rest IH]; simpl.
  - by rewrite bool_decide_eq_true_2.
  - case_bool_decide as Hk; simpl.
    + by rewrite bool_decide_eq_true_2.
    + rewrite bool_decide_eq_false_2 by done. by rewrite IH.
Qed.

(** After the four assignments on an inherited object, the lookup
    finds the same object, and assigning again changes nothing. *)
Lemma reset_inherited_again (st : server) k :
  inherited (reset_inherited st (inherited st k)) k = inherited st k /\
  reset_inherited (reset_inherited st (inherited st k)) (inherited st k)
  = reset_inherited st (inherited st k).
Proof.
  destruct st as [gs pr mr]. unfold inherited. simpl.
  case_bool_decide as Hproto; simpl; [done|].
  case_bool_decide as Hmeth; simpl.
  - split; [done|]. case_bool_decide as Hin; simpl; [done|].
    exfalso. apply Hin. case_bool_decide; [done | by left].
  - destruct pr; simpl; [|done]. by repeat case_bool_decide.
Qed.

(** A rematch for an id without stored record. *)
Lemma requestRematch_no_record sid gameId (st : server) :
  games_get gameId (games st) = None ->
  (requestRematch sid gameId st).1
  = if is_truthy (inherited st gameId)
    then reset_inherited st (inherited st gameId) else st.
Proof.
  intros Hg. unfold requestRematch. rewrite (games_lookup_own_None _ _ Hg).
  destruct (is_truthy (inherited st gameId)) eqn:Et; simpl; [|done].
  destruct (inherited st gameId) eqn:E; try done.
  by apply inherited_not_record in E.
Qed.

(** X14.  [requestRematch] is idempotent, and it neither looks at who
    asks nor at the state of the game: a second rematch, by any socket,
    leaves the state as the first one made it, and the result is the
    same for every requesting socket.  This holds for every id, the
    inherited ones included. *)
Theorem requestRematch_idempotent sid sid' gameId (st : server) :
  (requestRematch sid' gameId (requestRematch sid gameId st).1).1
  = (requestRematch sid gameId st).1 /\
  requestRematch sid gameId st = requestRematch sid' gameId st.
Proof.
  split; [|done].
  destruct (games_get gameId (games st)) as [g|] eqn:Hg.
  - rewrite (requestRematch_record _ _ _ _ Hg). simpl.
    rewrite (requestRematch_record _ _ _
               {| players := players g; board := emptyBoard;
                  currentPlayer := X; status := "in-progress";
                  winner := Some NoWinner |});
      [|apply games_get_set_eq].
    simpl. unfold set_games. simpl. by rewrite games_set_set.
  - destruct (reset_inherited_again st gameId) as [Hsame Hidem].
    rewrite (requestRematch_no_record sid _ _ Hg).
    destruct (is_truthy (inherited st gameId)) eqn:Et.
    + rewrite requestRematch_no_record
        by (by rewrite reset_inherited_games).
      rewrite Hsame, Et. exact Hidem.
    + by rewrite (requestRematch_no_record sid' _ _ Hg), Et.
Qed.

(** X15.  Joining a one-player game and leaving it again gives the
    creator back the game with its board, turn and winner, but with
    status 'in-progress' instead of the former status; the creator is
    sent [playerLeft]. *)
Theorem join_then_leave sid gameId uname rnd (st : server) g p0
    (Hg : games_get gameId (games st) = Some g)
    (Hone : players g = [p0])
    (Hother : id p0 <> sid) :
  leaveGame sid gameId (joinGame sid gameId uname rnd st).1
  = (set_games st
       (games_set gameId
          {| players := [p0]; board := board g;
             currentPlayer := currentPlayer g;
             status := "in-progress"; winner := winner g |} (games st)),
     [ RoomEmit (id p0) playerLeft; SocketLeave gameId ]).
Proof.
  rewrite (joinGame_record _ _ _ _ _ _ Hg), Hone. simpl.
  erewrite leaveGame_record; [|apply games_get_set_eq]. simpl.
  unfold findIndex_player. cbn.
  rewrite decide_False by done. cbn. rewrite decide_True by done. cbn.
  unfold removePlayer, set_games. cbn. by rewrite games_set_set.
Qed.

Lemma join_then_leave_witness :
  leaveGame "s2" "game_a"
    (joinGame "s2" "game_a" None 4
       (with_games [ ("game_a", waiting_game) ])).1
  = (with_games
       [ ("game_a",
          {| players := [ann]; board := emptyBoard; currentPlayer := X;
             status := "in-progress"; winner := None |}) ],
     [ RoomEmit "s1" playerLeft; SocketLeave "game_a" ]).
Proof.
  apply (join_then_leave "s2" "game_a" None 4
           (with_games [ ("game_a", waiting_game) ]) waiting_game ann).
  - reflexivity.
  - reflexivity.
  - discriminate.
Defined.

(** For the first game that holds the socket, [disconnect] is the
    removal from that game. *)
Lemma disconnect_first_game sid gameId (st : server) :
  first_game_of sid gameId st ->
  exists g i,
    games_get gameId (games st) = Some g /\
    findIndex_player sid (players g) = Some i /\
    disconnect sid st = removePlayer gameId g i st.
Proof.
  intros (pre & post & g & Hkeys & Hpre & Hg & Hp).
  apply participant_findIndex in Hp as [i Hi].
  exists g, i. split; [done|]. split; [done|].
  unfold disconnect, enumerated. rewrite Hkeys, <- !app_assoc.
  rewrite disconnect_scan_skip.
  - simpl. by rewrite (games_lookup_record _ _ _ Hg), Hi.
  - intros k Hk. destruct (games_get_key k (games st)) as [g0 Hg0].
    + rewrite Hkeys. apply elem_of_app. by left.
    + exists g0. split; [done|]. by eapply Hpre.
Qed.

(** X16.  [disconnect] does to the first game that holds the socket
    what [leaveGame] for that game does: the same new state and the
    same notification; [leaveGame] leaves the room in addition. *)
Theorem disconnect_as_leave sid gameId (st : server)
    (Hfirst : first_game_of sid gameId st) :
  leaveGame sid gameId st
  = ((disconnect sid st).1,
     (disconnect sid st).2 ++ [ SocketLeave gameId ]).
Proof.
  destruct (disconnect_first_game _ _ _ Hfirst) as (g & i & Hg & Hi & ->).
  by rewrite (leaveGame_record _ _ _ _ Hg), Hi.
Qed.

Lemma disconnect_as_leave_witness :
  leaveGame "s2" "game_a"
    (with_games [ ("game_b", waiting_game); ("game_a", started) ])
  = ((disconnect "s2"
        (with_games [ ("game_b", waiting_game); ("game_a", started) ])).1,
     (disconnect "s2"
        (with_games [ ("game_b", waiting_game); ("game_a", started) ])).2
     ++ [ SocketLeave "game_a" ]).
Proof.
  apply (disconnect_as_leave "s2" "game_a"
           (with_games [ ("game_b", waiting_game); ("game_a", started) ])).
  exists ["game_b"], [], started. split; [reflexivity|]. split.
  - intros k g0 Hk Hg0 (p & Hp & Hid).
    apply list_elem_of_singleton in Hk. subst k.
    injection Hg0 as <-. apply list_elem_of_singleton in Hp. subst p.
    discriminate Hid.
  - split; [reflexivity|]. exists bob. split; [right; left | reflexivity].
Defined.

(** X17.  When no socket's player record holds the symbol of
    [currentPlayer], every [makeMove] on the game is refused and the
    state stays as it is.  When moreover every player holds ['O'], a
    rematch does not help: the reset turn is ['X'] and every move is
    refused again. *)
Theorem no_holder_no_move gameId g (st : server)
    (Hg : games_get gameId (games st) = Some g)
    (Hnone : forall sid p, find_player sid (players g) = Some p ->
                           symbol p <> currentPlayer g) :
  moves_refused gameId st /\
  ((forall p, p ∈ players g -> symbol p = O) ->
   forall sid', moves_refused gameId (requestRematch sid' gameId st).1).
Proof.
  assert (forall (s0 : server) g0,
            games_get gameId (games s0) = Some g0 ->
            (forall sid p, find_player sid (players g0) = Some p ->
                           symbol p <> currentPlayer g0) ->
            moves_refused gameId s0) as Hgen.
  { intros s0 g0 Hg0 Hn sid cellIndex.
    destruct (validateMove sid g0 cellIndex) as [err|p] eqn:Hv.
    - unfold move_refused. rewrite (makeMove_rejected _ _ _ _ _ _ Hg0 Hv).
      simpl. split; [done | by eexists].
    - apply validateMove_inr in Hv as (_ & Hp & Hs).
      destruct (Hn sid p Hp Hs). }
  split; [by apply (Hgen st g)|].
  intros HallO sid'. rewrite (requestRematch_record _ _ _ _ Hg). simpl.
  eapply Hgen; [apply games_get_set_eq|]. simpl.
  intros sid p Hp. apply find_player_Some in Hp as [Hp _].
  rewrite (HallO p Hp). discriminate.
Qed.

Lemma no_holder_no_move_witness :
  reachable (run both_O init) /\
  games_get "game_a" (games (run both_O init)) = Some two_O /\
  moves_refused "game_a" (run both_O init).
Proof.
  assert (reachable (run both_O init)) as Hr by (exists both_O; reflexivity).
  assert (games_get "game_a" (games (run both_O init)) = Some two_O) as Hg
    by (vm_compute; reflexivity).
  split; [exact Hr|]. split; [exact Hg|].
  assert (forall sid p, find_player sid (players two_O) = Some p ->
                        symbol p <> currentPlayer two_O) as Hn.
  { intros sid p Hp. apply find_player_Some in Hp as [Hp _].
    apply elem_of_cons in Hp as [-> | Hp]; [discriminate|].
    apply list_elem_of_singleton in Hp as ->. discriminate. }
  exact (proj1 (no_holder_no_move "game_a" two_O (run both_O init) Hg Hn)).
Defined.

(** ** [checkWinner] treats the two symbols alike *)

Lemma lookup_swap_board (board : list cell) n :
  swap_board board !! n = (fun c : cell => flip <$> c) <$> (board !! n).
Proof. apply list_lookup_fmap. Qed.

Lemma wins_swap board p : wins (swap_board board) p = flip <$> wins board p.
Proof.
  destruct p as [[a b] c]. unfold wins. rewrite !lookup_swap_board.
  destruct (board !! a) as [[[]|]|], (board !! b) as [[[]|]|],
    (board !! c) as [[[]|]|]; reflexivity.
Qed.

Lemma firstWin_swap board ps :
  firstWin (swap_board board) ps = flip <$> firstWin board ps.
Proof.
  induction ps as [|p ps IH]; simpl; [done|].
  rewrite wins_swap. by destruct (wins board p).
Qed.

Lemma includes_null_swap board :
  includes_null (swap_board board) = includes_null board.
Proof.
  unfold includes_null, swap_board.
  induction board as [|c board IH]; [done|].
  rewrite fmap_cons. simpl. rewrite IH. destruct c; reflexivity.
Qed.

(** X18.  Exchanging the two symbols on a board exchanges them in the
    result of [checkWinner] and nothing else: a win of one symbol
    becomes the win of the other, a tie stays a tie, an open board stays
    open. *)
Theorem checkWinner_swap board :
  checkWinner (swap_board board) = swap_outcome (checkWinner board).
Proof.
  unfold checkWinner. rewrite firstWin_swap, includes_null_swap.
  destruct (firstWin board winPatterns); simpl; [done|].
  by destruct (includes_null board).
Qed.

(** ** Counting marks *)

Lemma marked_insert (board : list cell) n s :
  board !! n = Some None -> marked (<[n := Some s]> board) = S (marked board).
Proof.
  unfold marked. revert n. induction board as [|c board IH]; intros n Hn.
  - done.
  - destruct n as [|n]; simpl in Hn.
    + injection Hn as ->.
      change (<[0:=Some s]> (None :: board)) with (Some s :: board).
      rewrite filter_cons_True by (by eexists).
      rewrite filter_cons_False by (by intros [? ?]). done.
    + change (<[S n:=Some s]> (c :: board))
        with (c :: <[n:=Some s]> board).
      destruct c as [t|].
      * rewrite !filter_cons_True by (by eexists). simpl. by rewrite IH.
      * rewrite !filter_cons_False by (by intros [? ?]). by rewrite IH.
Qed.

(** X19.  An accepted move marks exactly one more cell: the number of
    cells holding a symbol grows by one, and it never exceeds the
    length of the board. *)
Theorem makeMove_marks_one sid gameId cellIndex (st : server) g p
    (Hg : games_get gameId (games st) = Some g)
    (Hcell : board_at (board g) cellIndex = Some None)
    (Hplayer : find_player sid (players g) = Some p)
    (Hturn : symbol p = currentPlayer g) :
  exists g',
    games_get gameId (games (makeMove sid gameId cellIndex st).1) = Some g' /\
    marked (board g') = S (marked (board g)) /\
    marked (board g') <= length (board g).
Proof.
  assert (validateMove sid g cellIndex = inr p) as Hv
    by (apply validateMove_inr; done).
  rewrite (makeMove_accepted _ _ _ _ _ _ Hg Hv). simpl.
  exists (applyMove g cellIndex). split; [apply games_get_set_eq|].
  rewrite applyMove_board.
  assert (board g !! Z.to_nat cellIndex = Some None) as Hn.
  { unfold board_at in Hcell. by destruct (0 <=? cellIndex)%Z. }
  split; [by apply marked_insert|].
  rewrite <- (length_insert (board g) (Z.to_nat cellIndex)
                (Some (currentPlayer g))).
  unfold marked. apply length_filter.
Qed.

Lemma makeMove_marks_one_witness :
  exists g',
    games_get "game_a" (games (makeMove "s1" "game_a" 5 (with_games [ ("game_a", x_won) ])).1)
    = Some g' /\
    marked (board g') = S (marked (board x_won)) /\
    marked (board g') <= length (board x_won).
Proof.
  apply (makeMove_marks_one "s1" "game_a" 5 (with_games [ ("game_a", x_won) ]) x_won ann);
    reflexivity.
Defined.

(** ** From creation to the first moves *)

(** X20.  [makeMove] does not wait for an opponent: in a reachable game
    that is still 'waiting', a move of the creator's socket on a cell
    that reads [null], while the turn is ['X'], is accepted; the cell
    then holds ['X'] and the game is still 'waiting' with one player. *)
Theorem move_while_waiting sid gameId cellIndex (st : server) g p
    (Hreach : reachable st)
    (Hg : games_get gameId (games st) = Some g)
    (Hwait : status g = "waiting")
    (Hplayer : find_player sid (players g) = Some p)
    (Hx : currentPlayer g = X)
    (Hcell : board_at (board g) cellIndex = Some None) :
  exists g',
    games_get gameId (games (makeMove sid gameId cellIndex st).1) = Some g' /\
    board_at (board g') cellIndex = Some (Some X) /\
    status g' = "waiting" /\
    length (players g') = 1.
Proof.
  destruct (seats_ok_reachable _ _ _ Hreach Hg) as (_ & _ & Hw).
  destruct (Hw Hwait) as (q & Hq & Hsym).
  assert (p = q) as ->.
  { apply find_player_Some in Hplayer as [Hin _]. rewrite Hq in Hin.
    by apply list_elem_of_singleton in Hin. }
  assert (validateMove sid g cellIndex = inr q) as Hv
    by (apply validateMove_inr; split_and!; [done | done | congruence]).
  rewrite (makeMove_accepted _ _ _ _ _ _ Hg Hv). simpl.
  exists (applyMove g cellIndex). split; [apply games_get_set_eq|].
  rewrite applyMove_board, applyMove_status, applyMove_players, Hx, Hq.
  split_and!; try done.
  apply board_at_insert_eq. by apply board_at_null_range.
Qed.

Lemma move_while_waiting_witness :
  exists g',
    games_get "game_a"
      (games (makeMove "s1" "game_a" 4
                (run [("s1", CreateGame (Some "ann") "a" 0)] init)).1)
    = Some g' /\
    board_at (board g') 4 = Some (Some X) /\
    status g' = "waiting" /\
    length (players g') = 1.
Proof.
  assert (reachable (run [("s1", CreateGame (Some "ann") "a" 0)] init)) as Hr
    by (eexists; reflexivity).
  apply (move_while_waiting "s1" "game_a" 4
           (run [("s1", CreateGame (Some "ann") "a" 0)] init)
           waiting_game ann Hr); reflexivity.
Defined.

Lemma first_mark_open cellIndex s :
  (0 <= cellIndex <= 8)%Z ->
  board_at emptyBoard cellIndex = Some None /\
  checkWinner (<[Z.to_nat cellIndex := Some s]> emptyBoard) = NoWinner.
Proof.
  intros H.
  assert (cellIndex = 0 \/ cellIndex = 1 \/ cellIndex = 2 \/ cellIndex = 3 \/
          cellIndex = 4 \/ cellIndex = 5 \/ cellIndex = 6 \/ cellIndex = 7 \/
          cellIndex = 8)%Z as Hc by lia.
  destruct s; repeat (destruct Hc as [-> | Hc]; [split; reflexivity|]);
    subst; split; reflexivity.
Qed.

(** X21.  A [createGame] followed by another socket's [joinGame] of the
    created id always gives a started game: creator with ['X'], joiner
    with ['O'], empty board, status 'in-progress', ['X'] to move.  In
    it the joiner's move on any cell 0..8 is refused as 'Not your turn'
    and the creator's move on any cell 0..8 is accepted and passes the
    turn to ['O']. *)
Theorem create_then_join sid1 uname1 tok rnd1 sid2 uname2 rnd2 (st : server)
    (Hdiff : sid1 <> sid2) :
  exists name1 name2,
    games_get ("game_" +:+ tok)
      (games (joinGame sid2 ("game_" +:+ tok) uname2 rnd2
         (createGame sid1 uname1 tok rnd1 st).1).1)
    = Some {| players := [ {| id := sid1; username := name1; symbol := X;
                              disconnected := false |};
                           {| id := sid2; username := name2; symbol := O;
                              disconnected := false |} ];
              board := emptyBoard; currentPlayer := X;
              status := "in-progress"; winner := None |} /\
    forall cellIndex, (0 <= cellIndex <= 8)%Z ->
      makeMove sid2 ("game_" +:+ tok) cellIndex
        (joinGame sid2 ("game_" +:+ tok) uname2 rnd2
           (createGame sid1 uname1 tok rnd1 st).1).1
      = ((joinGame sid2 ("game_" +:+ tok) uname2 rnd2
            (createGame sid1 uname1 tok rnd1 st).1).1,
         [ SocketEmit (moveError msg_not_your_turn) ]) /\
      exists g',
        games_get ("game_" +:+ tok)
          (games (makeMove sid1 ("game_" +:+ tok) cellIndex
             (joinGame sid2 ("game_" +:+ tok) uname2 rnd2
                (createGame sid1 uname1 tok rnd1 st).1).1).1) = Some g' /\
        board_at (board g') cellIndex = Some (Some X) /\
        currentPlayer g' = O.
Proof.
  set (gid := "game_" +:+ tok).
  set (name1 := or_default uname1 ("Player_" +:+ pretty rnd1)).
  set (name2 := or_default uname2 ("Player_" +:+ pretty rnd2)).
  set (p1 := {| id := sid1; username := name1; symbol := X;
                disconnected := false |}).
  set (p2 := {| id := sid2; username := name2; symbol := O;
                disconnected := false |}).
  set (g := {| players := [p1; p2]; board := emptyBoard; currentPlayer := X;
               status := "in-progress"; winner := None |}).
  set (created := {| players := [p1]; board := emptyBoard;
                     currentPlayer := X; status := "waiting";
                     winner := None |}).
  assert (games_get gid (games (createGame sid1 uname1 tok rnd1 st).1)
          = Some created) as Hc
    by (unfold createGame; simpl; apply games_get_set_eq).
  set (st2 := (joinGame sid2 gid uname2 rnd2
                 (createGame sid1 uname1 tok rnd1 st).1).1).
  assert (games_get gid (games st2) = Some g) as Hg.
  { unfold st2. rewrite (joinGame_record _ _ _ _ _ _ Hc). simpl.
    apply games_get_set_eq. }
  exists name1, name2. split; [exact Hg|].
  intros cellIndex Hr.
  destruct (first_mark_open cellIndex X Hr) as [Hnull Hopen].
  assert (find_player sid1 [p1; p2] = Some p1) as Hf1.
  { unfold find_player. cbn. by rewrite decide_True. }
  assert (find_player sid2 [p1; p2] = Some p2) as Hf2.
  { unfold find_player. cbn. rewrite decide_False by done. cbn.
    by rewrite decide_True. }
  split.
  - apply (makeMove_rejected _ _ _ _ g); [done|].
    unfold validateMove. simpl. rewrite bool_decide_eq_true_2 by done.
    by rewrite Hf2.
  - assert (validateMove sid1 g cellIndex = inr p1) as Hv
      by (apply validateMove_inr; done).
    rewrite (makeMove_accepted _ _ _ _ _ _ Hg Hv). simpl.
    exists (applyMove g cellIndex). split; [apply games_get_set_eq|].
    rewrite applyMove_board. split.
    + apply board_at_insert_eq. by apply (board_at_null_range emptyBoard).
    + by rewrite applyMove_currentPlayer_NoWinner.
Qed.

Lemma create_then_join_witness :
  "s1" <> "s2" /\
  exists name1 name2,
    games_get ("game_" +:+ "a")
      (games (joinGame "s2" ("game_" +:+ "a") (Some "bob") 0
         (createGame "s1" (Some "ann") "a" 0 init).1).1)
    = Some {| players := [ {| id := "s1"; username := name1; symbol := X;
                              disconnected := false |};
                           {| id := "s2"; username := name2; symbol := O;
                              disconnected := false |} ];
              board := emptyBoard; currentPlayer := X;
              status := "in-progress"; winner := None |}.
Proof.
  assert ("s1" <> "s2") as Hd by discriminate.
  split; [exact Hd|].
  destruct (create_then_join "s1" (Some "ann") "a" 0 "s2" (Some "bob") 0 init Hd)
    as (n1 & n2 & H & _).
  exists n1, n2. exact H.
Defined.


